(** * Hypergraph lifting of the UniSAGE / UniGCNII training notebooks

    The two notebooks share, verbatim, the cells that lift the citation
    graph to a hypergraph: one-hop neighbourhoods are read off the dataset
    edge list, sorted, deduplicated with a [set] of tuples, and written
    into a dense 0/1 incidence matrix that is validated by two assertions.
    They differ in the training loop only.  This file embeds those cells
    and proves the properties the specification states about them. *)

From stdpp Require Import base numbers list sorting gmap sets strings relations.

Open Scope Z_scope.

(** ** Data model *)

(** [data.edge_index] is a 2 x E integer tensor; column [k] is the edge
    from [edge_index[0][k]] to [edge_index[1][k]].  It is kept as the list
    of its columns, in tensor order. *)
Abbreviation edge_list := (list (Z * Z)).

(** A hyperedge is the Python list of a sorted tuple of node indices. *)
Abbreviation hyperedge := (list Z).

(** The dense matrix made by [np.zeros]; its cells only ever hold 0.0 or
    1.0, so a cell is kept as a natural number and the sums are exact. *)
Abbreviation matrix := (list (list nat)).

Inductive error : Type :=
  | IndexError
  | AssertionError (msg : string).

Inductive result (A : Type) : Type :=
  | Ok (a : A)
  | Raise (e : error).
Arguments Ok {A} a.
Arguments Raise {A} e.

(** Exceptions propagate: the rest of a cell runs only on [Ok]. *)
#[global] Instance result_bind : MBind result := λ A B k r,
  match r with
  | Ok a => k a
  | Raise e => Raise e
  end.

#[global] Instance error_eq_dec : EqDecision error.
Proof. solve_decision. Defined.

(** ** Neighbourhood collection *)

(** [data.edge_index[1, data.edge_index[0] == node]]: the targets of the
    columns whose source is [node], in tensor order. *)
Definition neighbors (data_edge_index : edge_list) (node : Z) : list Z :=
  (filter (λ e, e.1 = node) data_edge_index).*2.

(** [for node in range(data.num_nodes)]: one array per node. *)
Definition one_hop_neighborhoods (data_edge_index : edge_list) (num_nodes : nat)
    : list (list Z) :=
  (λ node : nat, neighbors data_edge_index (Z.of_nat node)) <$> seq 0 num_nodes.

(** Python's [sorted] on integers: ascending, duplicates kept. *)
Definition sorted (l : list Z) : list Z := merge_sort Z.le l.

(** ** Duplicate elimination *)

(** The loop over [one_hop_neighborhoods], threading the set
    [unique_hyperedges] and the list [hyperedges]. *)
Fixpoint dedup_loop (todo : list (list Z))
    (unique_hyperedges : gset (list Z)) (hyperedges : list hyperedge)
    : gset (list Z) * list hyperedge :=
  match todo with
  | [] => (unique_hyperedges, hyperedges)
  | neighborhood :: rest =>
      let neighborhood := sorted neighborhood in
      if decide (neighborhood ∈ unique_hyperedges)
      then dedup_loop rest unique_hyperedges hyperedges
      else dedup_loop rest ({[neighborhood]} ∪ unique_hyperedges)
                      (hyperedges ++ [neighborhood])
  end.

Definition hyperedges_of (nbhds : list (list Z)) : list hyperedge :=
  (dedup_loop nbhds ∅ []).2.

Definition hyperedges (data_edge_index : edge_list) (num_nodes : nat)
    : list hyperedge :=
  hyperedges_of (one_hop_neighborhoods data_edge_index num_nodes).

(** ** Incidence matrix *)

Definition np_zeros (rows cols : nat) : matrix :=
  replicate rows (replicate cols 0%nat).

(** numpy integer indexing along an axis of length [n]: indices in
    [0, n) are used as they are, indices in [-n, 0) count from the end,
    anything else raises [IndexError]. *)
Definition np_index (n : nat) (i : Z) : option nat :=
  if decide (0 ≤ i < Z.of_nat n) then Some (Z.to_nat i)
  else if decide (- Z.of_nat n ≤ i < 0) then Some (Z.to_nat (i + Z.of_nat n))
  else None.

(** [incidence_1[row, col] = 1] *)
Definition set_one (M : matrix) (row : Z) (col : nat) : result matrix :=
  match np_index (length M) row with
  | Some r => Ok (alter (λ line, <[col := 1%nat]> line) r M)
  | None => Raise IndexError
  end.

(** [for row in neighibourhood: incidence_1[row, col] = 1] *)
Fixpoint fill_column (M : matrix) (col : nat) (neighibourhood : list Z)
    : result matrix :=
  match neighibourhood with
  | [] => Ok M
  | row :: rest => M' ← set_one M row col; fill_column M' col rest
  end.

(** [for col, neighibourhood in enumerate(hyperedges): ...], with the
    counter of [enumerate] made explicit. *)
Fixpoint fill_from (M : matrix) (col : nat) (hes : list hyperedge)
    : result matrix :=
  match hes with
  | [] => Ok M
  | neighibourhood :: rest =>
      M' ← fill_column M col neighibourhood; fill_from M' (S col) rest
  end.

(** The dense matrix as it stands when the assertions are reached:
    [max_edges = len(hyperedges)], [np.zeros((x_0s.shape[0], max_edges))],
    then the two nested loops. *)
Definition dense_incidence (num_rows : nat) (hyperedges : list hyperedge)
    : result matrix :=
  let max_edges := length hyperedges in
  fill_from (np_zeros num_rows max_edges) 0 hyperedges.

Definition cell (M : matrix) (r c : nat) : nat :=
  default 0%nat (M !! r ≫= (.!! c)).

(** [incidence_1.sum(1)] and [incidence_1.sum(0)].  numpy reads the
    number of columns off the array shape; a list of rows loses it when
    there are no rows, so [col_sums] is told. *)
Definition row_sums (M : matrix) : list nat := sum_list <$> M.
Definition col_sums (cols : nat) (M : matrix) : list nat :=
  (λ c, sum_list ((λ line, default 0%nat (line !! c)) <$> M)) <$> seq 0 cols.

(** [all(v > 0)] *)
Definition all_positive (v : list nat) : bool :=
  forallb (λ s, bool_decide (0 < s)%nat) v.

(** The two assertions, in source order. *)
Definition check_incidence (cols : nat) (M : matrix) : result matrix :=
  if negb (all_positive (col_sums cols M))
  then Raise (AssertionError "Some hyperedges are empty")
  else if negb (all_positive (row_sums M))
  then Raise (AssertionError "Some nodes are not in any hyperedges")
  else Ok M.

(** The whole incidence cell.  The final [to_sparse_coo] only changes the
    storage of the validated matrix, which is returned as it is. *)
Definition incidence_of (num_rows : nat) (hyperedges : list hyperedge)
    : result matrix :=
  M ← dense_incidence num_rows hyperedges;
  check_incidence (length hyperedges) M.

(** The hypergraph of a dataset.  The row count [x_0s.shape[0]] is the node
    count [data.num_nodes]: torch_geometric reads the latter off the
    feature matrix. *)
Definition incidence_1 (data_edge_index : edge_list) (num_nodes : nat)
    : result matrix :=
  incidence_of num_nodes (hyperedges data_edge_index num_nodes).

(** ** Sample graphs *)

Definition ring_directed : edge_list := [(0,1); (1,2); (2,3); (3,4); (4,0)].
Definition ring_undirected : edge_list :=
  [(0,1); (0,4); (1,0); (1,2); (2,1); (2,3); (3,2); (3,4); (4,0); (4,3)].

(** ** The lifting cells as the notebooks run them *)

(** What the dataset object provides to the lifting cells.  torch_geometric
    derives [data.num_nodes] from the feature matrix, so it is also
    [x_0s.shape[0]], the row count of the incidence matrix. *)
Record dataset : Type := Dataset {
  data_edge_index : edge_list;
  data_num_nodes : nat
}.

(** The notebook variables that the lifting cells leave behind. *)
Record lifted : Type := Lifted {
  edge_index : edge_list;
  nb_one_hop_neighborhoods : list (list Z);
  nb_hyperedges : list hyperedge;
  nb_incidence_1 : result matrix
}.

Section lifting_cells.
(** [torch_geometric.utils.to_undirected] is library code: it returns a
    new tensor and leaves its argument as it was. *)
Variable to_undirected : edge_list → edge_list.

Definition lifting_cells (data : dataset) : lifted :=
  (* edge_index = data.edge_index *)
  let edge_index := data_edge_index data in
  (* edge_index = to_undirected(edge_index) *)
  let edge_index := to_undirected edge_index in
  (* neighbors = data.edge_index[1, data.edge_index[0] == node] *)
  let one_hop_neighborhoods :=
    (λ node : nat, neighbors (data_edge_index data) (Z.of_nat node))
      <$> seq 0 (data_num_nodes data) in
  let hyperedges := hyperedges_of one_hop_neighborhoods in
  let incidence_1 := incidence_of (data_num_nodes data) hyperedges in
  Lifted edge_index one_hop_neighborhoods hyperedges incidence_1.
End lifting_cells.

(** ** Training loops *)

Inductive event : Type :=
  | TrainStep (epoch : Z)
  | EvalReport (epoch : Z).

#[global] Instance event_eq_dec : EqDecision event.
Proof. solve_decision. Defined.

(** Python's [range(lo, hi)]. *)
Definition range (lo hi : Z) : list Z :=
  (λ k : nat, lo + Z.of_nat k) <$> seq 0 (Z.to_nat (hi - lo)).

(** One pass of either loop body: a training step, then the evaluation
    block when the counter is a multiple of the interval.  Python's [%]
    with a positive right operand is [Z.modulo]. *)
Definition epoch_body (test_interval : Z) (epoch : Z) : list event :=
  TrainStep epoch ::
  (if decide (epoch `mod` test_interval = 0) then [EvalReport epoch] else []).

Module UniSAGE.
Definition test_interval : Z := 5.
Definition num_epochs : Z := 5.
(** [for epoch_i in range(1, num_epochs + 1)] *)
Definition training_loop : list event :=
  range 1 (num_epochs + 1) ≫= epoch_body test_interval.
End UniSAGE.

Module UniGCNII.
Definition num_epochs : Z := 5.
Definition test_interval : Z := 5.
(** [for epoch in range(num_epochs)] *)
Definition training_loop : list event :=
  range 0 num_epochs ≫= epoch_body test_interval.
End UniGCNII.

Definition is_train (e : event) : bool :=
  match e with TrainStep _ => true | EvalReport _ => false end.

(** Number of training steps in a trace. *)
Definition epochs_run (trace : list event) : nat :=
  length (filter (λ e, is_train e = true) trace).


(** The epoch numbers the reports print. *)
Definition eval_epochs (trace : list event) : list Z :=
  omap (λ e, match e with EvalReport k => Some k | TrainStep _ => None end) trace.

(** ** Tuples of the nodes *)

(** The sorted tuple made from the neighbourhood of node [i]. *)
Definition node_tuple (data : edge_list) (i : nat) : list Z :=
  sorted (neighbors data (Z.of_nat i)).

(** Node [i] is the first node with its tuple. *)
Definition is_first (data : edge_list) (i : nat) : Prop :=
  ∀ k : nat, (k < i)%nat → node_tuple data k ≠ node_tuple data i.

#[global] Instance is_first_dec data i : Decision (is_first data i).
Proof.
  destruct (decide (Forall (λ k, node_tuple data k ≠ node_tuple data i) (seq 0 i)))
    as [H|H]; [left|right].
  - intros k Hk. rewrite Forall_forall in H. apply H, elem_of_seq. lia.
  - intros Hf. apply H, Forall_forall. intros k Hk%elem_of_seq. apply Hf. lia.
Defined.

(** ** Well-formed inputs and matrix shape *)

(** Every cell exists: [n] rows of [m] cells. *)
Definition has_shape (n m : nat) (M : matrix) : Prop :=
  length M = n ∧ Forall (λ line, length line = m) M.

(** Node indices of an edge list over [n] nodes. *)
Definition in_range (n : nat) (x : Z) : Prop := 0 ≤ x < Z.of_nat n.

Definition edges_over (n : nat) (data : edge_list) : Prop :=
  Forall (λ e, in_range n e.1 ∧ in_range n e.2) data.

Definition hyperedges_over (n : nat) (hes : list hyperedge) : Prop :=
  Forall (Forall (in_range n)) hes.

(** Node [r] is listed in the hyperedge of column [c]. *)
Definition member (hes : list hyperedge) (r c : nat) : Prop :=
  ∃ he, hes !! c = Some he ∧ Z.of_nat r ∈ he.

#[global] Instance in_range_dec n x : Decision (in_range n x).
Proof. unfold in_range. apply _. Defined.

#[global] Instance member_dec hes r c : Decision (member hes r c).
Proof.
  unfold member. destruct (hes !! c) as [he|] eqn:E.
  - destruct (decide (Z.of_nat r ∈ he)) as [H|H]; [left|right].
    + by exists he.
    + intros [he' [[= <-] H']]. done.
  - right. intros [he' [[=] _]].
Defined.

(** Every cell holds 0 or 1. *)
Definition binary (M : matrix) : Prop :=
  Forall (Forall (λ v, v = 0%nat ∨ v = 1%nat)) M.

Definition assertion_failed {A} (r : result A) : Prop :=
  ∃ msg, r = Raise (AssertionError msg).

(** Some hyperedge is empty, or some node is in no hyperedge. *)
Definition degenerate (n : nat) (hes : list hyperedge) : Prop :=
  [] ∈ hes ∨ ∃ r, (r < n)%nat ∧ ∀ he, he ∈ hes → Z.of_nat r ∉ he.

#[global] Instance edges_over_dec n data : Decision (edges_over n data).
Proof. unfold edges_over. apply _. Defined.

#[global] Instance hyperedges_over_dec n hes : Decision (hyperedges_over n hes).
Proof. unfold hyperedges_over. apply _. Defined.

(** ** Runs of the deduplication loop over an unordered set

    A Python [set] fixes no layout for its members; the loop only tests
    membership and adds.  A run is modelled step by step with the set kept
    in an arbitrary layout, which [add] may rearrange freely. *)

Record loop_state : Type := LoopState {
  ls_todo : list (list Z);
  ls_unique_hyperedges : list (list Z);
  ls_hyperedges : list hyperedge
}.

Inductive dedup_step : loop_state → loop_state → Prop :=
  | step_seen nb rest layout hes :
      sorted nb ∈ layout →
      dedup_step (LoopState (nb :: rest) layout hes) (LoopState rest layout hes)
  | step_new nb rest layout layout' hes :
      sorted nb ∉ layout →
      layout' ≡ₚ sorted nb :: layout →
      dedup_step (LoopState (nb :: rest) layout hes)
                 (LoopState rest layout' (hes ++ [sorted nb])).

(** A complete run of the lifting cells: the loop runs to the end of the
    neighbourhood list, then the incidence cell runs on its output. *)
Definition lifting_run (data : edge_list) (n : nat)
    (out : list hyperedge * result matrix) : Prop :=
  ∃ layout,
    rtc dedup_step (LoopState (one_hop_neighborhoods data n) [] [])
                   (LoopState [] layout out.1) ∧
    out.2 = incidence_of n out.1.

(** ** Further sample inputs *)

(** An edge list with a repeated edge, over two nodes. *)
Definition parallel_edges : edge_list := [(0,1); (0,1); (1,0)].

(** Three nodes, the first and the last with the same neighbourhood. *)
Definition shared_neighbor : edge_list := [(0,1); (1,0); (2,1)].


(** ** Hyperedge statistics cell *)

(** Exceptions of the cells below. *)
Inductive py_error : Type :=
  | ValueError
  | ZeroDivisionError.

Inductive raised (A : Type) : Type :=
  | Returned (a : A)
  | Raised (e : py_error).
Arguments Returned {A} a.
Arguments Raised {A} e.

(** Python's [min] and [max] of a list: [ValueError] on an empty one. *)
Definition py_min (l : list nat) : raised nat :=
  match l with
  | [] => Raised ValueError
  | x :: rest => Returned (foldl Nat.min x rest)
  end.

Definition py_max (l : list nat) : raised nat :=
  match l with
  | [] => Raised ValueError
  | x :: rest => Returned (foldl Nat.max x rest)
  end.

(** The integer statistics of the cell.  The mean, median and standard
    deviation it also prints are floating-point values that no later cell
    reads; they are left out. *)
Record hyperedge_stats : Type := HyperedgeStats {
  hyperedge_sizes : list nat;
  min_size : nat;
  max_size : nat;
  num_single_node_hyperedges : nat
}.

Definition hyperedge_statistics (hyperedges : list hyperedge)
    : raised hyperedge_stats :=
  (* hyperedge_sizes = [len(he) for he in hyperedges] *)
  let hyperedge_sizes := length <$> hyperedges in
  match py_min hyperedge_sizes with
  | Raised e => Raised e
  | Returned min_size =>
      match py_max hyperedge_sizes with
      | Raised e => Raised e
      | Returned max_size =>
          (* sum(np.array(hyperedge_sizes) == 1) *)
          let num_single_node_hyperedges :=
            sum_list ((λ s, if decide (s = 1%nat) then 1%nat else 0%nat)
                        <$> hyperedge_sizes) in
          Returned (HyperedgeStats hyperedge_sizes min_size max_size
                                   num_single_node_hyperedges)
      end
  end.

(** ** Model set-up *)

(** [out_channels = torch.unique(y).shape[0]]: the number of distinct
    labels. *)
Definition out_channels (y : list Z) : nat := length (remove_dups y).

(** [task_level = "graph" if out_channels == 1 else "node"] *)
Definition task_level (out_channels : nat) : string :=
  if decide (out_channels = 1%nat) then "graph" else "node".

(** The field of [Network] that [forward] branches on. *)
Record Network : Type := { out_pool : bool }.

(** [self.out_pool = True if task_level == "graph" else False] *)
Definition Network_init (task_level : string) : Network :=
  {| out_pool := if decide (task_level = "graph") then true else false |}.

Section forward.
(** The layers are library code; [max_dim0] is [torch.max(x, dim=0)[0]]. *)
Context {tensor : Type}.
Variable base_model : tensor → matrix → tensor * tensor.
Variable linear : tensor → tensor.
Variable max_dim0 : tensor → tensor.

Definition forward (self : Network) (x_0 : tensor) (incidence_1 : matrix)
    : tensor :=
  let '(x_0, x_1) := base_model x_0 incidence_1 in
  let x := if out_pool self then max_dim0 x_0 else x_0 in
  linear x.
End forward.

(** ** Training cells, operation by operation *)

Inductive subset : Type := TrainMask | ValMask | TestMask.

Inductive op : Type :=
  | ModelTrain
  | ModelEval
  | ZeroGrad
  | Forward
  | Backward
  | OptimizerStep (epoch : Z)
  | AppendLoss
  | PrintMetrics (epoch : Z) (subsets : list subset).

#[global] Instance subset_eq_dec : EqDecision subset.
Proof. solve_decision. Defined.

#[global] Instance op_eq_dec : EqDecision op.
Proof. solve_decision. Defined.

(** The loop [for epoch in counters: train; if epoch % test_interval == 0:
    evaluate].  The remainder is taken after the training operations of the
    epoch, and raises [ZeroDivisionError] for a zero interval. *)
Fixpoint run_epochs (train_ops eval_ops : Z → list op) (test_interval : Z)
    (counters : list Z) : list op * option py_error :=
  match counters with
  | [] => ([], None)
  | epoch :: rest =>
      if decide (test_interval = 0)
      then (train_ops epoch, Some ZeroDivisionError)
      else
        let out := run_epochs train_ops eval_ops test_interval rest in
        (train_ops epoch
           ++ (if decide (epoch `mod` test_interval = 0)
               then eval_ops epoch else [])
           ++ out.1,
         out.2)
  end.

Definition unisage_train_ops (epoch_i : Z) : list op :=
  [ModelTrain; ZeroGrad; Forward; Backward; OptimizerStep epoch_i; AppendLoss].

Definition unisage_eval_ops (epoch_i : Z) : list op :=
  [ModelEval; Forward; PrintMetrics epoch_i [TrainMask];
   PrintMetrics epoch_i [ValMask]; PrintMetrics epoch_i [TestMask]].

Definition unigcnii_train_ops (epoch : Z) : list op :=
  [ModelTrain; Forward; Backward; OptimizerStep epoch; ZeroGrad].

Definition unigcnii_eval_ops (epoch : Z) : list op :=
  [ModelEval; Forward; PrintMetrics epoch [TrainMask; TestMask]].

(** [for epoch_i in range(1, num_epochs + 1)] *)
Definition unisage_cell (num_epochs test_interval : Z) : list op * option py_error :=
  run_epochs unisage_train_ops unisage_eval_ops test_interval
             (range 1 (num_epochs + 1)).

(** [for epoch in range(num_epochs)] *)
Definition unigcnii_cell (num_epochs test_interval : Z) : list op * option py_error :=
  run_epochs unigcnii_train_ops unigcnii_eval_ops test_interval
             (range 0 num_epochs).

(** The subsets whose metrics were printed. *)
Definition printed_subsets (ops : list op) : list subset :=
  mjoin (omap (λ o, match o with PrintMetrics _ s => Some s | _ => None end) ops).

(** The trace of the loops at the grain of whole epochs. *)
Definition coarse (ops : list op) : list event :=
  omap (λ o, match o with
             | OptimizerStep e => Some (TrainStep e)
             | PrintMetrics e s =>
                 if decide (TrainMask ∈ s) then Some (EvalReport e) else None
             | _ => None
             end) ops.

(** What the library keeps between the operations: the mode of the module,
    and how many backward passes have been added into the gradients since
    they were last zeroed. *)
Record torch_state : Type := TorchState {
  training : bool;
  accumulated : nat
}.

Inductive observation : Type :=
  | ForwardIn (training : bool)
  | StepWith (accumulated : nat).

Definition exec_op (s : torch_state) (o : op) : torch_state * list observation :=
  match o with
  | ModelTrain => (TorchState true (accumulated s), [])
  | ModelEval => (TorchState false (accumulated s), [])
  | ZeroGrad => (TorchState (training s) 0, [])
  | Forward => (s, [ForwardIn (training s)])
  | Backward => (TorchState (training s) (S (accumulated s)), [])
  | OptimizerStep _ => (s, [StepWith (accumulated s)])
  | AppendLoss => (s, [])
  | PrintMetrics _ _ => (s, [])
  end.

Fixpoint exec (s : torch_state) (ops : list op) : torch_state * list observation :=
  match ops with
  | [] => (s, [])
  | o :: rest =>
      let '(s1, obs1) := exec_op s o in
      let '(s2, obs2) := exec s1 rest in
      (s2, obs1 ++ obs2)
  end.

(** A freshly built module is in training mode with no gradients. *)
Definition fresh : torch_state := TorchState true 0.

(** Every edge is listed in both directions. *)
Definition symmetric (data : edge_list) : Prop :=
  ∀ s d, (s, d) ∈ data → (d, s) ∈ data.

(** An index numpy accepts on an axis of length [n]. *)
Definition indexable (n : nat) (x : Z) : Prop := - Z.of_nat n ≤ x < Z.of_nat n.

#[global] Instance indexable_dec n x : Decision (indexable n x).
Proof. unfold indexable. apply _. Defined.


(** * Properties *)

(** ** The sample inputs, evaluated *)

Example hyperedges_ring :
  hyperedges ring_undirected 5 = [[1;4]; [0;2]; [1;3]; [2;4]; [0;3]].
Proof. vm_compute. reflexivity. Qed.

Example incidence_ring :
  incidence_1 ring_undirected 5 =
  Ok [[0;1;0;0;1]; [1;0;1;0;0]; [0;1;0;1;0]; [0;0;1;0;1]; [1;0;0;1;0]]%nat.
Proof. vm_compute. reflexivity. Qed.

Example unisage_trace : UniSAGE.training_loop =
  [TrainStep 1; TrainStep 2; TrainStep 3; TrainStep 4; TrainStep 5; EvalReport 5].
Proof. reflexivity. Qed.

Example unigcnii_trace : UniGCNII.training_loop =
  [TrainStep 0; EvalReport 0; TrainStep 1; TrainStep 2; TrainStep 3; TrainStep 4].
Proof. reflexivity. Qed.

(** ** Sorting *)

Section sorting.
Implicit Types l : list Z.

Lemma sorted_Sorted l : Sorted Z.le (sorted l).
Proof. apply (Sorted_merge_sort Z.le). Qed.

Lemma sorted_Permutation l : sorted l ≡ₚ l.
Proof. apply merge_sort_Permutation. Qed.

Lemma elem_of_sorted l x : x ∈ sorted l ↔ x ∈ l.
Proof. by rewrite sorted_Permutation. Qed.

Lemma sorted_length l : length (sorted l) = length l.
Proof. by rewrite sorted_Permutation. Qed.

Lemma sorted_nil_inv l : sorted l = [] → l = [].
Proof.
  intros E. apply Permutation_nil_r. rewrite <- E. symmetry. apply sorted_Permutation.
Qed.

(** Sorting is canonical: two arrays get the same tuple exactly when
    they hold the same values with the same multiplicities. *)
Lemma sorted_eq_iff l1 l2 : sorted l1 = sorted l2 ↔ l1 ≡ₚ l2.
Proof.
  split.
  - intros E. rewrite <- (sorted_Permutation l1), E. apply sorted_Permutation.
  - intros P. apply (Sorted_unique Z.le); try apply sorted_Sorted.
    by rewrite !sorted_Permutation.
Qed.

Lemma sorted_idemp l : sorted (sorted l) = sorted l.
Proof. apply sorted_eq_iff, sorted_Permutation. Qed.
End sorting.

(** ** The deduplication loop *)

Section dedup.
Implicit Types (todo : list (list Z)) (U : gset (list Z)) (h : list hyperedge).

Lemma dedup_loop_app todo1 todo2 U h :
  dedup_loop (todo1 ++ todo2) U h =
  dedup_loop todo2 (dedup_loop todo1 U h).1 (dedup_loop todo1 U h).2.
Proof.
  revert U h. induction todo1 as [|nb todo1 IH]; intros U h; simpl; [done|].
  case_decide; apply IH.
Qed.

(** The set holds what it held plus every tuple seen. *)
Lemma dedup_loop_seen todo U h :
  (dedup_loop todo U h).1 = U ∪ list_to_set (sorted <$> todo).
Proof.
  revert U h. induction todo as [|nb todo IH]; intros U h; simpl.
  - set_solver.
  - case_decide; rewrite IH; set_solver.
Qed.

(** The list only grows, at its end. *)
Lemma dedup_loop_prefix todo U h :
  ∃ new, (dedup_loop todo U h).2 = h ++ new.
Proof.
  revert U h. induction todo as [|nb todo IH]; intros U h; simpl.
  - exists []. by rewrite app_nil_r.
  - case_decide; [apply IH|].
    destruct (IH ({[sorted nb]} ∪ U) (h ++ [sorted nb])) as [new ->].
    exists (sorted nb :: new). by rewrite <- app_assoc.
Qed.

Lemma hyperedges_of_nil : hyperedges_of [] = [].
Proof. done. Qed.

(** One more neighbourhood appends its tuple exactly when no earlier
    neighbourhood gave the same tuple. *)
Lemma hyperedges_of_snoc todo nb :
  hyperedges_of (todo ++ [nb]) =
  hyperedges_of todo ++
    (if decide (sorted nb ∈ sorted <$> todo) then [] else [sorted nb]).
Proof.
  unfold hyperedges_of. rewrite dedup_loop_app. simpl.
  rewrite dedup_loop_seen.
  destruct (decide (sorted nb ∈ sorted <$> todo)) as [Hin|Hout].
  - rewrite decide_True by set_solver. simpl. by rewrite app_nil_r.
  - rewrite decide_False by set_solver. done.
Qed.

Lemma elem_of_hyperedges_of todo t :
  t ∈ hyperedges_of todo ↔ t ∈ sorted <$> todo.
Proof.
  induction todo as [|nb todo IH] using rev_ind; [done|].
  rewrite hyperedges_of_snoc, fmap_app, !elem_of_app, IH. simpl.
  case_decide; set_solver.
Qed.

Lemma NoDup_hyperedges_of todo : NoDup (hyperedges_of todo).
Proof.
  induction todo as [|nb todo IH] using rev_ind; [constructor|].
  rewrite hyperedges_of_snoc. case_decide.
  - by rewrite app_nil_r.
  - apply NoDup_app. split_and!; [done| |apply NoDup_singleton].
    intros t Ht ->%list_elem_of_singleton.
    by apply elem_of_hyperedges_of in Ht.
Qed.

Lemma hyperedges_of_Permutation todo :
  hyperedges_of todo ≡ₚ remove_dups (sorted <$> todo).
Proof.
  apply NoDup_Permutation.
  - apply NoDup_hyperedges_of.
  - apply NoDup_remove_dups.
  - intros t. by rewrite elem_of_hyperedges_of, elem_of_remove_dups.
Qed.

Lemma hyperedges_of_Sorted todo :
  Forall (Sorted Z.le) (hyperedges_of todo).
Proof.
  apply Forall_forall. intros t [nb [-> _]]%elem_of_hyperedges_of%list_elem_of_fmap.
  apply sorted_Sorted.
Qed.
End dedup.

(** ** Neighbourhoods of the nodes *)

Section neighbourhoods.
Variable data : edge_list.

Lemma elem_of_neighbors node x : x ∈ neighbors data node ↔ (node, x) ∈ data.
Proof.
  unfold neighbors. rewrite list_elem_of_fmap. split.
  - intros [[s d] [-> [E He]%list_elem_of_filter]]. simpl in *. by subst.
  - intros He. exists (node, x). split; [done|]. by apply list_elem_of_filter.
Qed.

Lemma one_hop_neighborhoods_S n :
  one_hop_neighborhoods data (S n) =
  one_hop_neighborhoods data n ++ [neighbors data (Z.of_nat n)].
Proof. unfold one_hop_neighborhoods. by rewrite seq_S, fmap_app. Qed.

Lemma one_hop_neighborhoods_length n :
  length (one_hop_neighborhoods data n) = n.
Proof. unfold one_hop_neighborhoods. by rewrite length_fmap, length_seq. Qed.

Lemma one_hop_neighborhoods_lookup n i :
  (i < n)%nat →
  one_hop_neighborhoods data n !! i = Some (neighbors data (Z.of_nat i)).
Proof.
  intros Hi. unfold one_hop_neighborhoods.
  by rewrite list_lookup_fmap, lookup_seq_lt.
Qed.

Lemma sorted_one_hop n :
  sorted <$> one_hop_neighborhoods data n = node_tuple data <$> seq 0 n.
Proof. unfold one_hop_neighborhoods. by rewrite <- list_fmap_compose. Qed.

Lemma is_first_alt i :
  is_first data i ↔ node_tuple data i ∉ node_tuple data <$> seq 0 i.
Proof.
  unfold is_first. rewrite list_elem_of_fmap. split.
  - intros H [k [E Hk%elem_of_seq]]. apply (H k); [lia|done].
  - intros H k Hk E. apply H. exists k. split; [done|]. apply elem_of_seq. lia.
Qed.

(** The hyperedge list is the list of tuples of the first-occurrence
    nodes, in node order. *)
Lemma hyperedges_first_occurrences n :
  hyperedges data n = node_tuple data <$> filter (is_first data) (seq 0 n).
Proof.
  unfold hyperedges. induction n as [|n IH]; [done|].
  rewrite one_hop_neighborhoods_S, hyperedges_of_snoc, IH, sorted_one_hop.
  rewrite seq_S, filter_app, fmap_app. f_equal. simpl.
  rewrite filter_cons, filter_nil. fold (node_tuple data n).
  destruct (decide (is_first data n)) as [Hf|Hf].
  - rewrite decide_False; [done|]. by apply is_first_alt.
  - rewrite decide_True; [done|].
    destruct (decide (node_tuple data n ∈ node_tuple data <$> seq 0 n)); [done|].
    by apply is_first_alt in n0.
Qed.

Lemma elem_of_hyperedges n t :
  t ∈ hyperedges data n ↔ ∃ i : nat, (i < n)%nat ∧ t = node_tuple data i.
Proof.
  unfold hyperedges. rewrite elem_of_hyperedges_of, sorted_one_hop, list_elem_of_fmap.
  split.
  - intros [i [E Hi%elem_of_seq]]. exists i. split; [lia|done].
  - intros [i [Hi E]]. exists i. split; [done|]. apply elem_of_seq. lia.
Qed.
End neighbourhoods.

(** ** Filling the dense matrix *)

Section filling.
Implicit Types (M : matrix) (n m r c : nat).

Lemma np_zeros_shape n m : has_shape n m (np_zeros n m).
Proof.
  split; [apply length_replicate|].
  apply Forall_replicate, length_replicate.
Qed.

Lemma cell_np_zeros n m r c : cell (np_zeros n m) r c = 0%nat.
Proof.
  unfold cell, np_zeros.
  destruct (_ !! r) as [line|] eqn:E; [|done].
  apply lookup_replicate in E as [-> _]. simpl.
  destruct (_ !! c) as [v|] eqn:E'; [|done].
  by apply lookup_replicate in E' as [-> _].
Qed.

Lemma np_index_in_range n x : in_range n x → np_index n x = Some (Z.to_nat x).
Proof. intros H. unfold np_index. by rewrite decide_True. Qed.

Lemma cell_outside n m M r c :
  has_shape n m M → ¬ (r < n ∧ c < m)%nat → cell M r c = 0%nat.
Proof.
  intros [Hn Hm] Hout. unfold cell.
  destruct (M !! r) as [line|] eqn:E; [|done]. simpl.
  destruct (line !! c) as [v|] eqn:E'; [|done].
  exfalso. apply Hout. split.
  - rewrite <- Hn. by eapply lookup_lt_Some.
  - rewrite Forall_forall in Hm.
    rewrite <- (Hm line) by (by eapply list_elem_of_lookup_2).
    by eapply lookup_lt_Some.
Qed.

(** One write: the addressed cell becomes 1, every other cell stays. *)
Lemma set_one_spec n m M row c :
  has_shape n m M → in_range n row → (c < m)%nat →
  ∃ M', set_one M row c = Ok M' ∧ has_shape n m M' ∧
    ∀ r' c', cell M' r' c' =
      if decide (Z.of_nat r' = row ∧ c' = c) then 1%nat else cell M r' c'.
Proof.
  intros [Hn Hm] Hrow Hc. unfold set_one. rewrite Hn, np_index_in_range by done.
  eexists. split; [done|]. split.
  - split; [by rewrite length_alter|].
    apply Forall_alter; [done|]. intros line _ Hlen. by rewrite length_insert.
  - intros r' c'. unfold cell.
    destruct (decide (r' = Z.to_nat row)) as [->|Hr].
    + rewrite list_lookup_alter_eq.
      assert (is_Some (M !! Z.to_nat row)) as [line Hline].
      { apply lookup_lt_is_Some. unfold in_range in Hrow. lia. }
      rewrite Hline. simpl.
      assert (length line = m) as Hlen.
      { rewrite Forall_forall in Hm. apply Hm. by eapply list_elem_of_lookup_2. }
      destruct (decide (c' = c)) as [->|Hc'].
      * rewrite list_lookup_insert_eq by lia.
        rewrite decide_True; [done|]. unfold in_range in Hrow. lia.
      * rewrite list_lookup_insert_ne by done.
        rewrite decide_False; [done|]. tauto.
    + rewrite list_lookup_alter_ne by done.
      rewrite decide_False; [done|]. unfold in_range in Hrow. lia.
Qed.

(** One column: the listed rows become 1 in that column. *)
Lemma fill_column_spec n m M c rows :
  has_shape n m M → Forall (in_range n) rows → (c < m)%nat →
  ∃ M', fill_column M c rows = Ok M' ∧ has_shape n m M' ∧
    ∀ r' c', cell M' r' c' =
      if decide (c' = c ∧ Z.of_nat r' ∈ rows) then 1%nat else cell M r' c'.
Proof.
  intros HM Hrows Hc. revert M HM.
  induction Hrows as [|row rows Hrow Hrows IH]; intros M HM; simpl.
  - exists M. split_and!; [done..|]. intros r' c'.
    rewrite decide_False; [done|]. intros [_ H]. by apply elem_of_nil in H.
  - destruct (set_one_spec n m M row c HM Hrow Hc) as (M1 & -> & HM1 & Hcell1).
    simpl. destruct (IH M1 HM1) as (M' & -> & HM' & Hcell').
    exists M'. split_and!; [done..|]. intros r' c'.
    rewrite Hcell', Hcell1.
    repeat case_decide; try done; exfalso; set_solver.
Qed.

(** All columns from [c0] on. *)
Lemma fill_from_spec n m M c0 hes :
  has_shape n m M → hyperedges_over n hes → (c0 + length hes ≤ m)%nat →
  ∃ M', fill_from M c0 hes = Ok M' ∧ has_shape n m M' ∧
    ∀ r' c', cell M' r' c' =
      if decide (c0 ≤ c' ∧ member hes r' (c' - c0))%nat then 1%nat
      else cell M r' c'.
Proof.
  intros HM Hhes. revert M c0 HM.
  induction Hhes as [|he hes Hhe Hhes IH]; intros M c0 HM Hlen; simpl in *.
  - exists M. split_and!; [done..|]. intros r' c'.
    rewrite decide_False; [done|]. intros [_ [he [[=] _]]].
  - destruct (fill_column_spec n m M c0 he HM Hhe) as (M1 & -> & HM1 & Hcell1);
      [lia|]. simpl.
    destruct (IH M1 (S c0) HM1) as (M' & -> & HM' & Hcell'); [lia|].
    exists M'. split_and!; [done..|]. intros r' c'.
    rewrite Hcell', Hcell1. unfold member.
    destruct (decide (c' = c0)) as [->|Hne].
    + rewrite (decide_False (P := (S c0 ≤ c0 ∧ _)%nat)) by lia.
      replace (c0 - c0)%nat with 0%nat by lia. simpl.
      repeat case_decide; try done; exfalso; naive_solver.
    + rewrite (decide_False (P := (c' = c0 ∧ _))) by tauto.
      destruct (decide (c0 ≤ c')%nat) as [Hle|Hgt].
      * replace (c' - c0)%nat with (S (c' - S c0)) by lia. simpl.
        repeat case_decide; try done; exfalso; naive_solver lia.
      * repeat case_decide; try done; exfalso; naive_solver lia.
Qed.

(** For hyperedges over the nodes the loop completes, and the matrix it
    leaves is the membership table. *)
Lemma dense_incidence_spec n hes :
  hyperedges_over n hes →
  ∃ M, dense_incidence n hes = Ok M ∧ has_shape n (length hes) M ∧
    ∀ r c, cell M r c = if decide (member hes r c) then 1%nat else 0%nat.
Proof.
  intros Hhes. unfold dense_incidence.
  destruct (fill_from_spec n (length hes) (np_zeros n (length hes)) 0 hes)
    as (M & -> & HM & Hcell); [apply np_zeros_shape|done|lia|].
  exists M. split_and!; [done..|]. intros r c.
  rewrite Hcell, cell_np_zeros, Nat.sub_0_r.
  repeat case_decide; try done; exfalso; naive_solver lia.
Qed.

(** The hyperedges built from an edge list over [n] nodes are over [n]. *)
Lemma hyperedges_in_range data n :
  edges_over n data → hyperedges_over n (hyperedges data n).
Proof.
  intros Hdata. apply Forall_forall. intros t [i [Hi ->]]%elem_of_hyperedges.
  apply Forall_forall. intros x Hx%elem_of_sorted%elem_of_neighbors.
  unfold edges_over in Hdata. rewrite Forall_forall in Hdata.
  by destruct (Hdata _ Hx) as [_ ?].
Qed.
End filling.

(** ** Row sums, column sums and the assertions *)

Section sums.
Implicit Types (M : matrix) (n m r c : nat).

Lemma fmap_by_index {A B} (f : A → B) (g : nat → B) (l : list A) :
  (∀ i x, l !! i = Some x → g i = f x) →
  f <$> l = g <$> seq 0 (length l).
Proof.
  intros Hg. apply list_eq. intros i. rewrite !list_lookup_fmap.
  destruct (l !! i) as [x|] eqn:E; simpl.
  - rewrite lookup_seq_lt by (by eapply lookup_lt_Some). simpl.
    f_equal. symmetry. by apply Hg.
  - rewrite lookup_seq_ge; [done|]. by apply lookup_ge_None.
Qed.

Lemma sum_list_pos (l : list nat) :
  (0 < sum_list l)%nat ↔ ∃ x, x ∈ l ∧ (0 < x)%nat.
Proof.
  induction l as [|y l IH]; simpl.
  - split; [lia|]. intros [x [H _]]. by apply elem_of_nil in H.
  - split.
    + intros H. destruct (decide (0 < y)%nat).
      * exists y. split; [left|done].
      * destruct (proj1 IH) as [x [Hx Hpos]]; [lia|].
        exists x. split; [by right|done].
    + intros [x [[->|Hx]%elem_of_cons Hpos]]; [lia|].
      assert (0 < sum_list l)%nat by (apply IH; eauto). lia.
Qed.

Lemma sum_indicator {A} (P : A → Prop) `{!∀ x, Decision (P x)} (l : list A) :
  sum_list ((λ x, if decide (P x) then 1%nat else 0%nat) <$> l) =
  length (filter P l).
Proof.
  induction l as [|x l IH]; [done|]. rewrite fmap_cons, filter_cons. simpl.
  case_decide; simpl; lia.
Qed.

Lemma all_positive_Forall (v : list nat) :
  all_positive v = true ↔ Forall (λ s, 1 ≤ s)%nat v.
Proof.
  unfold all_positive. rewrite forallb_forall, Forall_forall.
  setoid_rewrite <- list_elem_of_In. setoid_rewrite bool_decide_eq_true.
  split; intros H s Hs; apply H in Hs; lia.
Qed.

Lemma row_sums_cells n m M :
  has_shape n m M →
  row_sums M = (λ r, sum_list ((λ c, cell M r c) <$> seq 0 m)) <$> seq 0 n.
Proof.
  intros [Hn Hm]. unfold row_sums. rewrite <- Hn. apply fmap_by_index.
  intros r line Hline. f_equal.
  assert (length line = m) as <-.
  { rewrite Forall_forall in Hm. apply Hm. by eapply list_elem_of_lookup_2. }
  symmetry. transitivity (id <$> line); [by rewrite list_fmap_id|].
  apply fmap_by_index.
  intros c v Hv. unfold cell. by rewrite Hline; simpl; rewrite Hv.
Qed.

Lemma col_sums_cells n m M :
  has_shape n m M →
  col_sums m M = (λ c, sum_list ((λ r, cell M r c) <$> seq 0 n)) <$> seq 0 m.
Proof.
  intros [Hn Hm]. unfold col_sums. apply list_fmap_ext. intros _ c _.
  f_equal. rewrite <- Hn. apply fmap_by_index.
  intros r line Hline. unfold cell. by rewrite Hline.
Qed.

Lemma row_sums_length M : length (row_sums M) = length M.
Proof. unfold row_sums. by rewrite length_fmap. Qed.

Lemma col_sums_length m M : length (col_sums m M) = m.
Proof. unfold col_sums. by rewrite length_fmap, length_seq. Qed.

(** What the two assertions let through. *)
Lemma check_incidence_Ok m M M' :
  check_incidence m M = Ok M' ↔
  M' = M ∧ Forall (λ s, 1 ≤ s)%nat (col_sums m M)
         ∧ Forall (λ s, 1 ≤ s)%nat (row_sums M).
Proof.
  unfold check_incidence. rewrite <- !all_positive_Forall.
  destruct (all_positive (col_sums m M)), (all_positive (row_sums M));
    simpl; naive_solver.
Qed.

Lemma check_incidence_total m M :
  check_incidence m M = Ok M ∨
  check_incidence m M = Raise (AssertionError "Some hyperedges are empty") ∨
  check_incidence m M = Raise (AssertionError "Some nodes are not in any hyperedges").
Proof.
  unfold check_incidence.
  destruct (all_positive (col_sums m M)), (all_positive (row_sums M)); simpl; auto.
Qed.

(** Sums of a membership table. *)
Section table.
Variables (n : nat) (hes : list hyperedge) (M : matrix).
Hypothesis Hhes : hyperedges_over n hes.
Hypothesis Hshape : has_shape n (length hes) M.
Hypothesis Hcell :
  ∀ r c, cell M r c = if decide (member hes r c) then 1%nat else 0%nat.

Lemma table_col_sum c he :
  hes !! c = Some he →
  col_sums (length hes) M !! c = Some (length (remove_dups he)).
Proof using Hhes Hshape Hcell.
  intros Hc. rewrite (col_sums_cells n) by done.
  rewrite list_lookup_fmap, lookup_seq_lt by (by eapply lookup_lt_Some).
  simpl. f_equal.
  rewrite (list_fmap_ext _ (λ r, if decide (member hes r c) then 1 else 0)%nat
             (seq 0 n)) by (intros; apply Hcell).
  rewrite sum_indicator.
  rewrite <- (length_fmap Z.of_nat). apply Permutation_length.
  apply NoDup_Permutation.
  - apply NoDup_fmap; [apply _|]. apply NoDup_filter, NoDup_seq.
  - apply NoDup_remove_dups.
  - intros x. rewrite elem_of_remove_dups, list_elem_of_fmap. split.
    + intros [r [-> [[he' [E Hin]] _]%list_elem_of_filter]]. congruence.
    + intros Hx. exists (Z.to_nat x).
      assert (in_range n x) as Hr.
      { unfold hyperedges_over in Hhes. rewrite Forall_forall in Hhes.
        eapply Forall_forall; [apply Hhes|done]. by eapply list_elem_of_lookup_2. }
      unfold in_range in Hr. split; [lia|].
      apply list_elem_of_filter. split.
      * exists he. split; [done|]. by rewrite Z2Nat.id by lia.
      * apply elem_of_seq. lia.
Qed.

Lemma table_row_sum r :
  (r < n)%nat →
  row_sums M !! r =
    Some (length (filter (λ c, member hes r c) (seq 0 (length hes)))).
Proof using Hhes Hshape Hcell.
  intros Hr. rewrite (row_sums_cells n (length hes)) by done.
  rewrite list_lookup_fmap, lookup_seq_lt by done. simpl. f_equal.
  rewrite (list_fmap_ext _ (λ c, if decide (member hes r c) then 1 else 0)%nat
             (seq 0 (length hes))) by (intros; apply Hcell).
  apply sum_indicator.
Qed.

Lemma table_cols_positive :
  Forall (λ s, 1 ≤ s)%nat (col_sums (length hes) M) ↔ [] ∉ hes.
Proof using Hhes Hshape Hcell.
  rewrite Forall_lookup. split.
  - intros H [c Hc]%list_elem_of_lookup.
    specialize (H c _ (table_col_sum c [] Hc)). simpl in H. lia.
  - intros Hne c s Hs.
    assert (c < length hes)%nat as [he Hhe]%lookup_lt_is_Some.
    { rewrite <- (col_sums_length (length hes) M). by eapply lookup_lt_Some. }
    rewrite (table_col_sum c he Hhe) in Hs. injection Hs as <-.
    destruct he as [|x he]; [exfalso; apply Hne; by eapply list_elem_of_lookup_2|].
    assert (x ∈ remove_dups (x :: he)) as Hx by (apply elem_of_remove_dups; left).
    destruct (remove_dups (x :: he)); [by apply elem_of_nil in Hx|simpl; lia].
Qed.

Lemma table_rows_positive :
  Forall (λ s, 1 ≤ s)%nat (row_sums M) ↔
  ∀ r, (r < n)%nat → ∃ he, he ∈ hes ∧ Z.of_nat r ∈ he.
Proof using Hhes Hshape Hcell.
  rewrite Forall_lookup. split.
  - intros H r Hr. specialize (H r _ (table_row_sum r Hr)).
    destruct (filter _ _) as [|c l] eqn:E; [simpl in H; lia|].
    assert (c ∈ filter (λ c, member hes r c) (seq 0 (length hes))) as Hc
      by (rewrite E; left).
    apply list_elem_of_filter in Hc as [[he [Hhe Hin]] _].
    exists he. split; [by eapply list_elem_of_lookup_2|done].
  - intros H r s Hs.
    assert (r < n)%nat as Hr.
    { destruct Hshape as [<- _]. rewrite <- row_sums_length. by eapply lookup_lt_Some. }
    rewrite (table_row_sum r Hr) in Hs. injection Hs as <-.
    destruct (H r Hr) as [he [[c Hc]%list_elem_of_lookup Hin]].
    assert (c ∈ filter (λ c, member hes r c) (seq 0 (length hes))) as Hmem.
    { apply list_elem_of_filter. split; [by exists he|].
      apply elem_of_seq. apply lookup_lt_Some in Hc. lia. }
    destruct (filter _ _); [by apply elem_of_nil in Hmem|simpl; lia].
Qed.
End table.
End sums.

(** ** Cells hold 0 or 1 *)

Section binary.
Implicit Types (M : matrix).

Lemma np_zeros_binary n m : binary (np_zeros n m).
Proof. apply Forall_replicate, Forall_replicate. by left. Qed.

Lemma set_one_binary M row c M' :
  binary M → set_one M row c = Ok M' → binary M'.
Proof.
  unfold set_one. intros HM. destruct (np_index _ _); [|done].
  intros [= <-]. apply Forall_alter; [done|].
  intros line _ Hline. apply Forall_insert; [done|by right].
Qed.

(** Writing the same cell again changes nothing. *)
Lemma set_one_idemp M row c M' :
  set_one M row c = Ok M' → set_one M' row c = Ok M'.
Proof.
  unfold set_one. destruct (np_index (length M) row) as [r|] eqn:E; [|done].
  intros [= <-]. rewrite length_alter, E. f_equal.
  rewrite list_alter_alter_eq. apply list_alter_ext; [|done].
  intros line _. simpl. apply list_insert_insert_eq.
Qed.

Lemma fill_column_binary M c rows M' :
  binary M → fill_column M c rows = Ok M' → binary M'.
Proof.
  revert M. induction rows as [|row rows IH]; intros M HM; simpl.
  - by intros [= <-].
  - destruct (set_one M row c) as [M1|] eqn:E; [|done]. simpl.
    apply IH. by eapply set_one_binary.
Qed.

Lemma fill_from_binary M c hes M' :
  binary M → fill_from M c hes = Ok M' → binary M'.
Proof.
  revert M c. induction hes as [|he hes IH]; intros M c HM; simpl.
  - by intros [= <-].
  - destruct (fill_column M c he) as [M1|] eqn:E; [|done]. simpl.
    apply IH. by eapply fill_column_binary.
Qed.

Lemma dense_incidence_binary n hes M :
  dense_incidence n hes = Ok M → binary M.
Proof. apply fill_from_binary, np_zeros_binary. Qed.

Lemma cell_lookup n m M r c :
  has_shape n m M → (r < n)%nat → (c < m)%nat →
  M !! r ≫= (.!! c) = Some (cell M r c).
Proof.
  intros [Hn Hm] Hr Hc. unfold cell.
  destruct (lookup_lt_is_Some_2 M r) as [line Hline]; [lia|].
  rewrite Hline. simpl.
  destruct (lookup_lt_is_Some_2 line c) as [v ->]; [|done].
  rewrite Forall_forall in Hm. rewrite (Hm line); [done|].
  by eapply list_elem_of_lookup_2.
Qed.
End binary.

(** ** Multiplicities in a neighbourhood *)

Lemma neighbors_count data node x :
  length (filter (λ y, y = x) (neighbors data node)) =
  length (filter (λ e, e = (node, x)) data).
Proof.
  unfold neighbors. induction data as [|[s d] data IH]; [done|].
  rewrite (filter_cons (λ e, e = (node, x))), (filter_cons (λ e, e.1 = node)).
  simpl. destruct (decide (s = node)) as [->|Hs].
  - rewrite fmap_cons, filter_cons. simpl.
    destruct (decide (d = x)) as [->|Hd].
    + rewrite decide_True by done. simpl. by rewrite IH.
    + rewrite decide_False by congruence. done.
  - rewrite decide_False by congruence. done.
Qed.

Lemma neighbors_NoDup data node : NoDup data → NoDup (neighbors data node).
Proof.
  intros Hnd. unfold neighbors. apply NoDup_fmap_2_strong.
  - intros [s1 d1] [s2 d2] [E1 _]%list_elem_of_filter [E2 _]%list_elem_of_filter.
    simpl in *. congruence.
  - by apply NoDup_filter.
Qed.

(** ** Position of a first-occurrence node *)

Lemma filter_seq_position (P : nat → Prop) `{!∀ i, Decision (P i)} n j i :
  filter P (seq 0 n) !! j = Some i →
  (i < n)%nat ∧ P i ∧ length (filter P (seq 0 i)) = j.
Proof.
  induction n as [|n IH]; [done|].
  rewrite seq_S, filter_app. simpl. intros [Hl|[Hge Hr]]%lookup_app_Some.
  - destruct (IH Hl) as (? & ? & ?). split_and!; [lia|done..].
  - rewrite filter_cons, filter_nil in Hr. case_decide; [|done].
    apply list_lookup_singleton_Some in Hr as [Hj <-].
    split_and!; [lia|done|lia].
Qed.

Section runs.
Implicit Types (U : gset (list Z)).

Lemma dedup_step_function s s' U :
  dedup_step s s' →
  (∀ t, t ∈ ls_unique_hyperedges s ↔ t ∈ U) →
  ∃ U', (∀ t, t ∈ ls_unique_hyperedges s' ↔ t ∈ U') ∧
    dedup_loop (ls_todo s) U (ls_hyperedges s) =
    dedup_loop (ls_todo s') U' (ls_hyperedges s').
Proof.
  intros Hstep HU. destruct Hstep as [nb rest layout hes Hin
                                    |nb rest layout layout' hes Hout Hperm]; simpl in *.
  - exists U. split; [done|]. rewrite decide_True; [done|]. by apply HU.
  - exists ({[sorted nb]} ∪ U). split.
    + intros t. rewrite Hperm. set_solver.
    + rewrite decide_False; [done|]. by rewrite <- HU.
Qed.

Lemma dedup_run_function s s' U :
  rtc dedup_step s s' →
  (∀ t, t ∈ ls_unique_hyperedges s ↔ t ∈ U) →
  ls_todo s' = [] →
  ls_hyperedges s' = (dedup_loop (ls_todo s) U (ls_hyperedges s)).2.
Proof.
  intros Hrun. revert U. induction Hrun as [s|s1 s2 s3 Hstep Hrun IH]; intros U HU Hend.
  - by rewrite Hend.
  - destruct (dedup_step_function _ _ U Hstep HU) as (U' & HU' & ->).
    by apply IH.
Qed.

(** Some run always exists: the one that keeps the set in insertion order. *)
Lemma dedup_run_exists todo layout hes :
  ∃ layout', rtc dedup_step (LoopState todo layout hes)
    (LoopState [] layout' (dedup_loop todo (list_to_set layout) hes).2).
Proof.
  revert layout hes. induction todo as [|nb todo IH]; intros layout hes; simpl.
  - by exists layout.
  - case_decide as Hin.
    + destruct (IH layout hes) as [layout' Hrun]. exists layout'.
      eapply rtc_l; [|done]. apply step_seen. set_solver.
    + destruct (IH (sorted nb :: layout) (hes ++ [sorted nb])) as [layout' Hrun].
      exists layout'. eapply rtc_l; [|done]. apply step_new; [set_solver|done].
Qed.

Lemma lifting_run_function data n out :
  lifting_run data n out → out = (hyperedges data n, incidence_1 data n).
Proof.
  destruct out as [hes inc]. intros (layout & Hrun & Hinc). simpl in *.
  apply (dedup_run_function _ _ ∅) in Hrun; [|set_solver|done]. simpl in Hrun.
  unfold incidence_1, hyperedges, hyperedges_of. by rewrite Hinc, Hrun.
Qed.

Lemma lifting_run_exists data n :
  lifting_run data n (hyperedges data n, incidence_1 data n).
Proof.
  destruct (dedup_run_exists (one_hop_neighborhoods data n) [] []) as [layout Hrun].
  exists layout. split; [|done]. apply Hrun.
Qed.
End runs.

(** ** Traces of the training loops *)

Section traces.
Variable test_interval : Z.

Lemma epochs_run_loop (counters : list Z) :
  epochs_run (counters ≫= epoch_body test_interval) = length counters.
Proof.
  unfold epochs_run. induction counters as [|e counters IH]; [done|].
  rewrite bind_cons, filter_app, length_app, IH. unfold epoch_body.
  case_decide; done.
Qed.

Lemma eval_epochs_loop (counters : list Z) :
  eval_epochs (counters ≫= epoch_body test_interval) =
  filter (λ e, e `mod` test_interval = 0) counters.
Proof.
  unfold eval_epochs. induction counters as [|e counters IH]; [done|].
  rewrite bind_cons, omap_app, IH, filter_cons. unfold epoch_body.
  case_decide; done.
Qed.

End traces.

(** ** The assertions on a membership table *)

Lemma rows_not_positive n hes M :
  hyperedges_over n hes → has_shape n (length hes) M →
  (∀ r c, cell M r c = if decide (member hes r c) then 1%nat else 0%nat) →
  ¬ Forall (λ s, 1 ≤ s)%nat (row_sums M) ↔
  ∃ r, (r < n)%nat ∧ ∀ he, he ∈ hes → Z.of_nat r ∉ he.
Proof.
  intros Hhes Hshape Hcell. split.
  - intros [s [[r Hr]%list_elem_of_lookup Hs]]%not_Forall_Exists%Exists_exists;
      [|apply _].
    assert (r < n)%nat as Hlt.
    { destruct Hshape as [<- _]. rewrite <- row_sums_length. by eapply lookup_lt_Some. }
    exists r. split; [done|]. intros he [c Hc]%list_elem_of_lookup Hin.
    rewrite (table_row_sum n hes M Hhes Hshape Hcell r Hlt) in Hr.
    injection Hr as <-.
    assert (c ∈ filter (λ c, member hes r c) (seq 0 (length hes))) as Hmem.
    { apply list_elem_of_filter. split; [by exists he|].
      apply elem_of_seq. apply lookup_lt_Some in Hc. lia. }
    destruct (filter _ _); [by apply elem_of_nil in Hmem|simpl in Hs; lia].
  - intros (r & Hr & Hnone) Hall.
    destruct (proj1 (table_rows_positive n hes M Hhes Hshape Hcell) Hall r Hr)
      as (he & Hhe & Hin).
    by apply (Hnone he).
Qed.

Lemma incidence_of_cases n hes :
  hyperedges_over n hes →
  ∃ M, dense_incidence n hes = Ok M ∧
    incidence_of n hes = check_incidence (length hes) M ∧
    (Forall (λ s, 1 ≤ s)%nat (col_sums (length hes) M) ↔ [] ∉ hes) ∧
    (¬ Forall (λ s, 1 ≤ s)%nat (row_sums M) ↔
       ∃ r, (r < n)%nat ∧ ∀ he, he ∈ hes → Z.of_nat r ∉ he).
Proof.
  intros Hhes. destruct (dense_incidence_spec n hes Hhes) as (M & HM & Hshape & Hcell).
  exists M. split_and!; [done| |by apply (table_cols_positive n)
                        |by apply rows_not_positive].
  unfold incidence_of. by rewrite HM.
Qed.

Lemma incidence_of_failed_iff n hes :
  hyperedges_over n hes →
  (assertion_failed (incidence_of n hes) ↔ degenerate n hes) ∧
  ((∃ M, incidence_of n hes = Ok M) ↔ ¬ degenerate n hes).
Proof.
  intros Hhes.
  destruct (incidence_of_cases n hes Hhes) as (M & _ & -> & Hcols & Hrows).
  unfold degenerate, assertion_failed, check_incidence.
  rewrite <- Hrows. clear Hrows.
  destruct (all_positive (col_sums _ M)) eqn:Ec; simpl.
  - apply all_positive_Forall, Hcols in Ec.
    destruct (all_positive (row_sums M)) eqn:Er; simpl.
    + apply all_positive_Forall in Er. split; split.
      * intros [msg [=]].
      * intros [?|?]; done.
      * intros _ [?|?]; done.
      * eauto.
    + assert (¬ Forall (λ s, 1 ≤ s)%nat (row_sums M)) as Hr.
      { intros H%all_positive_Forall. congruence. }
      split; split.
      * by right.
      * eauto.
      * intros [M' [=]].
      * intros H. destruct H. by right.
  - assert ([] ∈ hes) as Hempty.
    { destruct (decide ([] ∈ hes)); [done|].
      apply Hcols, all_positive_Forall in n0. congruence. }
    split; split.
    + by left.
    + eauto.
    + intros [M' [=]].
    + intros H. destruct H. by left.
Qed.

(** * Specified properties *)

(** C1.  For every edge list over [n] nodes the incidence loop completes;
    the matrix has [n] rows and as many columns as there are hyperedges,
    which are pairwise distinct; the entry at (row, col) is 1 when node
    [row] is listed in hyperedge [col] and 0 otherwise; and this is the
    matrix the cell hands on whenever the assertions pass. *)
Theorem incidence_matrix_is_membership_table (data : edge_list) (n : nat) :
  edges_over n data →
  ∃ M, dense_incidence n (hyperedges data n) = Ok M
    ∧ length M = n
    ∧ Forall (λ line, length line = length (hyperedges data n)) M
    ∧ NoDup (hyperedges data n)
    ∧ (∀ r c he, (r < n)%nat → hyperedges data n !! c = Some he →
         M !! r ≫= (.!! c) =
         Some (if decide (Z.of_nat r ∈ he) then 1%nat else 0%nat))
    ∧ (∀ M', incidence_1 data n = Ok M' → M' = M).
Proof.
  intros Hdata. pose proof (hyperedges_in_range data n Hdata) as Hhes.
  destruct (dense_incidence_spec n _ Hhes) as (M & HM & Hshape & Hcell).
  exists M. split_and!; [done|apply Hshape|apply Hshape|apply NoDup_hyperedges_of| |].
  - intros r c he Hr Hc.
    rewrite (cell_lookup n (length (hyperedges data n))), Hcell;
      [|done|done|by eapply lookup_lt_Some].
    f_equal. destruct (decide (Z.of_nat r ∈ he)) as [Hin|Hout].
    + rewrite decide_True; [done|]. by exists he.
    + rewrite decide_False; [done|]. intros [he' [E Hin]]. congruence.
  - intros M'. unfold incidence_1, incidence_of. rewrite HM. simpl.
    by intros [-> _]%check_incidence_Ok.
Qed.

Lemma incidence_matrix_is_membership_table_witness :
  edges_over 5 ring_undirected ∧
  ∃ M, dense_incidence 5 (hyperedges ring_undirected 5) = Ok M
    ∧ length M = 5%nat
    ∧ Forall (λ line, length line = length (hyperedges ring_undirected 5)) M
    ∧ NoDup (hyperedges ring_undirected 5)
    ∧ (∀ r c he, (r < 5)%nat → hyperedges ring_undirected 5 !! c = Some he →
         M !! r ≫= (.!! c) =
         Some (if decide (Z.of_nat r ∈ he) then 1%nat else 0%nat))
    ∧ (∀ M', incidence_1 ring_undirected 5 = Ok M' → M' = M).
Proof.
  split.
  - apply (bool_decide_unpack _). vm_compute. exact I.
  - apply (incidence_matrix_is_membership_table ring_undirected 5).
    apply (bool_decide_unpack _). vm_compute. exact I.
Defined.

(** C2.  The hyperedge list has no two equal entries, also when the
    entries are compared as sorted tuples, and it has one entry per
    distinct sorted one-hop neighbourhood of the nodes. *)
Theorem hyperedges_distinct (data : edge_list) (n : nat) :
  NoDup (hyperedges data n)
  ∧ NoDup (sorted <$> hyperedges data n)
  ∧ length (hyperedges data n) =
    size (list_to_set (sorted <$> one_hop_neighborhoods data n) : gset (list Z))
  ∧ length (hyperedges data n) =
    length (remove_dups (sorted <$> one_hop_neighborhoods data n)).
Proof.
  assert (sorted <$> hyperedges data n = hyperedges data n) as Hid.
  { transitivity (id <$> hyperedges data n); [|apply list_fmap_id].
    apply list_fmap_ext. intros j t Ht%list_elem_of_lookup_2.
    apply elem_of_hyperedges in Ht as (i & _ & ->). apply sorted_idemp. }
  rewrite Hid. unfold hyperedges.
  split_and!; try apply NoDup_hyperedges_of.
  - rewrite <- (size_list_to_set (C := gset (list Z)) (hyperedges_of _))
      by apply NoDup_hyperedges_of.
    f_equal. apply set_eq. intros t.
    by rewrite !elem_of_list_to_set, elem_of_hyperedges_of.
  - by rewrite hyperedges_of_Permutation.
Qed.

(** C3.  On an edge list over [n] nodes the incidence cell halts on an
    assertion exactly when some hyperedge is empty or some node is in no
    hyperedge, and otherwise yields a matrix; a matrix that is yielded has
    every row sum and every column sum at least 1. *)
Theorem incidence_fails_iff_degenerate (data : edge_list) (n : nat) :
  edges_over n data →
  (assertion_failed (incidence_1 data n) ↔ degenerate n (hyperedges data n))
  ∧ ((∃ M, incidence_1 data n = Ok M) ↔ ¬ degenerate n (hyperedges data n))
  ∧ (∀ M, incidence_1 data n = Ok M →
       Forall (λ s, 1 ≤ s)%nat (row_sums M) ∧
       Forall (λ s, 1 ≤ s)%nat (col_sums (length (hyperedges data n)) M)).
Proof.
  intros Hdata. pose proof (hyperedges_in_range data n Hdata) as Hhes.
  destruct (incidence_of_failed_iff n _ Hhes) as [Hfail Hok].
  split_and!; [done..|].
  intros M. unfold incidence_1, incidence_of.
  destruct (dense_incidence n (hyperedges data n)) as [M0|]; [|done]. simpl.
  intros (-> & Hc & Hr)%check_incidence_Ok. done.
Qed.

Lemma incidence_fails_iff_degenerate_witness :
  edges_over 3 [(0,1); (1,0)] ∧
  (assertion_failed (incidence_1 [(0,1); (1,0)] 3)
     ↔ degenerate 3 (hyperedges [(0,1); (1,0)] 3))
  ∧ ((∃ M, incidence_1 [(0,1); (1,0)] 3 = Ok M)
     ↔ ¬ degenerate 3 (hyperedges [(0,1); (1,0)] 3))
  ∧ (∀ M, incidence_1 [(0,1); (1,0)] 3 = Ok M →
       Forall (λ s, 1 ≤ s)%nat (row_sums M) ∧
       Forall (λ s, 1 ≤ s)%nat
         (col_sums (length (hyperedges [(0,1); (1,0)] 3)) M)).
Proof.
  split.
  - apply (bool_decide_unpack _). vm_compute. exact I.
  - apply (incidence_fails_iff_degenerate [(0,1); (1,0)] 3).
    apply (bool_decide_unpack _). vm_compute. exact I.
Defined.

(** C4, as stated, fails: with the edge 0 -> 1 listed twice, the tuple of
    node 0 lists neighbour 1 twice, so not every neighbour occurs exactly
    once in it. *)
Lemma parallel_edges_repeat_neighbor :
  edges_over 2 parallel_edges ∧
  ¬ (∀ i : nat, (i < 2)%nat →
       node_tuple parallel_edges i ∈ hyperedges parallel_edges 2 ∧
       Sorted Z.le (node_tuple parallel_edges i) ∧
       NoDup (node_tuple parallel_edges i) ∧
       ∀ x, x ∈ node_tuple parallel_edges i ↔ (Z.of_nat i, x) ∈ parallel_edges).
Proof.
  split.
  - apply (bool_decide_unpack _). vm_compute. exact I.
  - intros H. destruct (H 0%nat) as (_ & _ & Hnd & _); [lia|].
    assert (node_tuple parallel_edges 0 = [1; 1]) as E by (vm_compute; reflexivity).
    rewrite E in Hnd. apply NoDup_cons in Hnd as [Hnotin _].
    apply Hnotin. left.
Qed.

(** C4, amended.  The hyperedge derived from a node is the list of that
    node's neighbours read off the edge list (the targets of the edges
    leaving it), in ascending order, each neighbour as many times as the
    edge to it is listed, hence exactly once when no edge is listed twice;
    and exactly one copy of each distinct sorted tuple is kept. *)
Theorem hyperedge_is_sorted_neighbor_list (data : edge_list) (n i : nat) :
  (i < n)%nat →
  one_hop_neighborhoods data n !! i = Some (neighbors data (Z.of_nat i))
  ∧ Sorted Z.le (node_tuple data i)
  ∧ node_tuple data i ≡ₚ neighbors data (Z.of_nat i)
  ∧ (∀ x, x ∈ node_tuple data i ↔ (Z.of_nat i, x) ∈ data)
  ∧ (∀ x, length (filter (λ y, y = x) (node_tuple data i)) =
          length (filter (λ e, e = (Z.of_nat i, x)) data))
  ∧ (NoDup data → NoDup (node_tuple data i))
  ∧ node_tuple data i ∈ hyperedges data n
  ∧ NoDup (hyperedges data n).
Proof.
  intros Hi. split_and!.
  - by apply one_hop_neighborhoods_lookup.
  - apply sorted_Sorted.
  - apply sorted_Permutation.
  - intros x. unfold node_tuple. by rewrite elem_of_sorted, elem_of_neighbors.
  - intros x. unfold node_tuple. rewrite sorted_Permutation. apply neighbors_count.
  - intros Hnd. unfold node_tuple. rewrite sorted_Permutation.
    by apply neighbors_NoDup.
  - apply elem_of_hyperedges. eauto.
  - apply NoDup_hyperedges_of.
Qed.

Lemma hyperedge_is_sorted_neighbor_list_witness :
  (0 < 2)%nat ∧
  (one_hop_neighborhoods parallel_edges 2 !! 0%nat
     = Some (neighbors parallel_edges (Z.of_nat 0))
  ∧ Sorted Z.le (node_tuple parallel_edges 0)
  ∧ node_tuple parallel_edges 0 ≡ₚ neighbors parallel_edges (Z.of_nat 0)
  ∧ (∀ x, x ∈ node_tuple parallel_edges 0 ↔ (Z.of_nat 0, x) ∈ parallel_edges)
  ∧ (∀ x, length (filter (λ y, y = x) (node_tuple parallel_edges 0)) =
          length (filter (λ e, e = (Z.of_nat 0, x)) parallel_edges))
  ∧ (NoDup parallel_edges → NoDup (node_tuple parallel_edges 0))
  ∧ node_tuple parallel_edges 0 ∈ hyperedges parallel_edges 2
  ∧ NoDup (hyperedges parallel_edges 2)).
Proof.
  split; [lia|]. apply (hyperedge_is_sorted_neighbor_list parallel_edges 2 0). lia.
Defined.

(** C5.  With the five ring edges stored in both directions, the lifting
    cells yield five pairwise distinct hyperedges, the two-element
    neighbour tuple of each node in node order, and the incidence cell
    passes its assertions with every row sum and column sum at least 1. *)
Theorem ring_graph_lifting (to_undirected : edge_list → edge_list) :
  let out := lifting_cells to_undirected (Dataset ring_undirected 5) in
  nb_hyperedges out = [[1; 4]; [0; 2]; [1; 3]; [2; 4]; [0; 3]]
  ∧ nb_hyperedges out = node_tuple ring_undirected <$> seq 0 5
  ∧ length (nb_hyperedges out) = 5%nat
  ∧ NoDup (nb_hyperedges out)
  ∧ Forall (λ he, length he = 2%nat ∧ NoDup he) (nb_hyperedges out)
  ∧ ∃ M, nb_incidence_1 out = Ok M
      ∧ Forall (λ s, 1 ≤ s)%nat (row_sums M)
      ∧ Forall (λ s, 1 ≤ s)%nat (col_sums 5 M).
Proof.
  intros out.
  assert (nb_hyperedges out = hyperedges ring_undirected 5) as -> by reflexivity.
  assert (nb_incidence_1 out = incidence_1 ring_undirected 5) as -> by reflexivity.
  assert (hyperedges ring_undirected 5 = [[1; 4]; [0; 2]; [1; 3]; [2; 4]; [0; 3]])
    as E by (vm_compute; reflexivity).
  split_and!; [done|by rewrite E|by rewrite E|apply NoDup_hyperedges_of| |].
  - rewrite E. apply (bool_decide_unpack _). vm_compute. exact I.
  - eexists. split; [vm_compute; reflexivity|].
    split; apply all_positive_Forall; vm_compute; reflexivity.
Qed.

(** On the five directed pairs alone each node has one out-neighbour, and
    a symmetrised copy bound to [edge_index] does not change that. *)
Example ring_directed_singletons :
  nb_hyperedges (lifting_cells (λ _, ring_undirected) (Dataset ring_directed 5))
    = [[1]; [2]; [3]; [4]; [0]]
  ∧ hyperedges ring_undirected 5 = [[1; 4]; [0; 2]; [1; 3]; [2; 4]; [0; 3]].
Proof. split; vm_compute; reflexivity. Qed.

(** C6.  The lifting is deterministic: a run exists, and any two runs on
    the same edge list, whatever layout the set of seen tuples takes in
    each, end with the same hyperedge list and the same incidence result,
    namely those computed by [hyperedges] and [incidence_1]. *)
Theorem lifting_deterministic (data : edge_list) (n : nat)
    (out1 out2 : list hyperedge * result matrix) :
  lifting_run data n out1 →
  lifting_run data n out2 →
  out1 = out2
  ∧ out1 = (hyperedges data n, incidence_1 data n)
  ∧ lifting_run data n (hyperedges data n, incidence_1 data n).
Proof.
  intros ->%lifting_run_function ->%lifting_run_function.
  split_and!; [done..|]. apply lifting_run_exists.
Qed.

Lemma lifting_deterministic_witness :
  lifting_run [(0,1); (1,0)] 2 ([[1]; [0]], incidence_of 2 [[1]; [0]])
  ∧ lifting_run [(0,1); (1,0)] 2 ([[1]; [0]], incidence_of 2 [[1]; [0]])
  ∧ (([[1]; [0]], incidence_of 2 [[1]; [0]])
       = ([[1]; [0]], incidence_of 2 [[1]; [0]])
     ∧ ([[1]; [0]], incidence_of 2 [[1]; [0]])
       = (hyperedges [(0,1); (1,0)] 2, incidence_1 [(0,1); (1,0)] 2)
     ∧ lifting_run [(0,1); (1,0)] 2
         (hyperedges [(0,1); (1,0)] 2, incidence_1 [(0,1); (1,0)] 2)).
Proof.
  assert (∀ layout, layout ≡ₚ [[0]; [1]] →
    lifting_run [(0,1); (1,0)] 2 ([[1]; [0]], incidence_of 2 [[1]; [0]])) as Hrun.
  { intros layout Hlayout. exists layout. split; [|reflexivity].
    eapply rtc_l; [apply (step_new [1] [[0]] [] [[1]] [])|].
    - vm_compute. intros H. inversion H.
    - reflexivity.
    - eapply rtc_l; [|apply rtc_refl].
      apply (step_new [0] [] [[1]] layout [[1]]).
      + vm_compute. intros H. inversion H; subst. inversion H2.
      + exact Hlayout. }
  split; [apply (Hrun [[0]; [1]]); reflexivity|].
  split; [apply (Hrun [[1]; [0]]); apply Permutation_swap|].
  apply (lifting_deterministic [(0,1); (1,0)] 2).
  - apply (Hrun [[0]; [1]]). reflexivity.
  - apply (Hrun [[1]; [0]]). apply Permutation_swap.
Defined.

(** C8.  The neighbourhoods are read from [data.edge_index]: for each node,
    the targets of the edges whose source is that node.  The list returned
    by [to_undirected] is bound to [edge_index] and never read, so the
    hyperedges and the incidence matrix are the same whatever it returns. *)
Theorem to_undirected_result_unused
    (to_undirected other : edge_list → edge_list) (data : dataset) :
  edge_index (lifting_cells to_undirected data)
    = to_undirected (data_edge_index data)
  ∧ nb_one_hop_neighborhoods (lifting_cells to_undirected data)
    = (λ node : nat,
         (filter (λ e, e.1 = Z.of_nat node) (data_edge_index data)).*2)
      <$> seq 0 (data_num_nodes data)
  ∧ nb_hyperedges (lifting_cells to_undirected data)
    = hyperedges (data_edge_index data) (data_num_nodes data)
  ∧ nb_incidence_1 (lifting_cells to_undirected data)
    = incidence_1 (data_edge_index data) (data_num_nodes data)
  ∧ nb_one_hop_neighborhoods (lifting_cells other data)
    = nb_one_hop_neighborhoods (lifting_cells to_undirected data)
  ∧ nb_hyperedges (lifting_cells other data)
    = nb_hyperedges (lifting_cells to_undirected data)
  ∧ nb_incidence_1 (lifting_cells other data)
    = nb_incidence_1 (lifting_cells to_undirected data).
Proof. by split_and!. Qed.

(** C9.  The hyperedge list keeps first-occurrence order: it is the list
    of tuples of the nodes whose tuple differs from that of every
    lower-indexed node, in node order.  Hence hyperedge [j] is the tuple of
    the [j]-th such node, which is the smallest node having that tuple, and
    over an edge list on [n] nodes column [j] of the incidence matrix
    marks exactly the members of that node's tuple. *)
Theorem hyperedges_first_occurrence_order (data : edge_list) (n j : nat)
    (he : hyperedge) :
  hyperedges data n = node_tuple data <$> filter (is_first data) (seq 0 n)
  ∧ (hyperedges data n !! j = Some he →
     ∃ i : nat, (i < n)%nat
       ∧ he = node_tuple data i
       ∧ (∀ k : nat, (k < i)%nat → node_tuple data k ≠ he)
       ∧ length (filter (is_first data) (seq 0 i)) = j
       ∧ (edges_over n data →
          ∃ M, dense_incidence n (hyperedges data n) = Ok M
            ∧ ∀ r : nat, (r < n)%nat →
                M !! r ≫= (.!! j) =
                Some (if decide (Z.of_nat r ∈ node_tuple data i)
                      then 1%nat else 0%nat))).
Proof.
  split; [apply hyperedges_first_occurrences|].
  intros Hj. pose proof Hj as Hj'.
  rewrite hyperedges_first_occurrences, list_lookup_fmap in Hj'.
  destruct (filter (is_first data) (seq 0 n) !! j) as [i|] eqn:Ei; [|done].
  injection Hj' as <-.
  apply filter_seq_position in Ei as (Hi & Hfirst & Hpos).
  exists i. split_and!; [done..|].
  intros Hdata. pose proof (hyperedges_in_range data n Hdata) as Hhes.
  destruct (dense_incidence_spec n _ Hhes) as (M & HM & Hshape & Hcell).
  exists M. split; [done|]. intros r Hr.
  rewrite (cell_lookup n (length (hyperedges data n))), Hcell;
    [|done|done|by eapply lookup_lt_Some].
  f_equal. destruct (decide (Z.of_nat r ∈ node_tuple data i)) as [Hin|Hout].
  - rewrite decide_True; [done|]. by exists (node_tuple data i).
  - rewrite decide_False; [done|]. intros [he' [E Hin]]. congruence.
Qed.

Lemma hyperedges_first_occurrence_order_witness :
  hyperedges shared_neighbor 3 !! 1%nat = Some [0]
  ∧ ∃ i : nat, (i < 3)%nat
      ∧ [0] = node_tuple shared_neighbor i
      ∧ (∀ k : nat, (k < i)%nat → node_tuple shared_neighbor k ≠ [0])
      ∧ length (filter (is_first shared_neighbor) (seq 0 i)) = 1%nat
      ∧ (edges_over 3 shared_neighbor →
         ∃ M, dense_incidence 3 (hyperedges shared_neighbor 3) = Ok M
           ∧ ∀ r : nat, (r < 3)%nat →
               M !! r ≫= (.!! 1%nat) =
               Some (if decide (Z.of_nat r ∈ node_tuple shared_neighbor i)
                     then 1%nat else 0%nat)).
Proof.
  split; [vm_compute; reflexivity|].
  apply (proj2 (hyperedges_first_occurrence_order shared_neighbor 3 1 [0])).
  vm_compute. reflexivity.
Defined.

(** C10.  Every entry of the matrix is 0 or 1; writing a cell that was
    already written changes nothing; and over an edge list on [n] nodes the
    sum of column [c] is the number of distinct nodes listed in hyperedge
    [c], however often the tuple repeats a node. *)
Theorem incidence_entries_binary (data : edge_list) (n : nat) (M : matrix) :
  dense_incidence n (hyperedges data n) = Ok M →
  binary M
  ∧ (∀ M0 row col M1, set_one M0 row col = Ok M1 → set_one M1 row col = Ok M1)
  ∧ (edges_over n data → ∀ c he, hyperedges data n !! c = Some he →
       col_sums (length (hyperedges data n)) M !! c
       = Some (length (remove_dups he))).
Proof.
  intros HM. split; [by eapply dense_incidence_binary|].
  split; [apply set_one_idemp|].
  intros Hdata c he Hc. pose proof (hyperedges_in_range data n Hdata) as Hhes.
  destruct (dense_incidence_spec n _ Hhes) as (M' & HM' & Hshape & Hcell).
  assert (M' = M) as -> by congruence.
  by apply (table_col_sum n).
Qed.

Lemma incidence_entries_binary_witness :
  dense_incidence 2 (hyperedges parallel_edges 2) = Ok [[0; 1]; [1; 0]]%nat
  ∧ hyperedges parallel_edges 2 = [[1; 1]; [0]]
  ∧ binary [[0; 1]; [1; 0]]%nat
  ∧ (∀ M0 row col M1, set_one M0 row col = Ok M1 → set_one M1 row col = Ok M1)
  ∧ (edges_over 2 parallel_edges → ∀ c he,
       hyperedges parallel_edges 2 !! c = Some he →
       col_sums (length (hyperedges parallel_edges 2)) [[0; 1]; [1; 0]]%nat !! c
       = Some (length (remove_dups he))).
Proof.
  split; [vm_compute; reflexivity|]. split; [vm_compute; reflexivity|].
  apply (incidence_entries_binary parallel_edges 2). vm_compute. reflexivity.
Defined.

(** * Further properties of the cells *)

(** ** Hyperedge construction *)

Lemma neighbors_Permutation data data' node :
  data ≡ₚ data' → neighbors data node ≡ₚ neighbors data' node.
Proof. intros H. unfold neighbors. by rewrite H. Qed.

Lemma node_tuple_ext data data' :
  (∀ i : nat, node_tuple data i = node_tuple data' i) →
  ∀ n, hyperedges data n = hyperedges data' n.
Proof.
  intros H n. rewrite !hyperedges_first_occurrences.
  rewrite (list_filter_iff (is_first data) (is_first data')).
  - apply list_fmap_ext. intros; apply H.
  - intros i. unfold is_first. by setoid_rewrite H.
Qed.

(** X1.  The order of the columns of the edge list does not matter: two
    edge lists that are permutations of each other give the same hyperedge
    list and the same incidence result. *)
Theorem hyperedges_edge_order_irrelevant (data data' : edge_list) (n : nat) :
  data ≡ₚ data' →
  hyperedges data n = hyperedges data' n
  ∧ incidence_1 data n = incidence_1 data' n.
Proof.
  intros H.
  assert (hyperedges data n = hyperedges data' n) as E.
  { apply node_tuple_ext. intros i. unfold node_tuple.
    by apply sorted_eq_iff, neighbors_Permutation. }
  split; [done|]. unfold incidence_1. by rewrite E.
Qed.

Lemma hyperedges_edge_order_irrelevant_witness :
  [(0,1); (1,0)] ≡ₚ [(1,0); (0,1)]
  ∧ hyperedges [(0,1); (1,0)] 2 = hyperedges [(1,0); (0,1)] 2
  ∧ incidence_1 [(0,1); (1,0)] 2 = incidence_1 [(1,0); (0,1)] 2.
Proof.
  split; [apply Permutation_swap|].
  apply (hyperedges_edge_order_irrelevant [(0,1); (1,0)] [(1,0); (0,1)] 2).
  apply Permutation_swap.
Defined.

Lemma hyperedges_length_le data n : (length (hyperedges data n) ≤ n)%nat.
Proof.
  rewrite hyperedges_first_occurrences, length_fmap.
  etransitivity; [apply length_filter|]. by rewrite length_seq.
Qed.

Lemma hyperedges_S data n :
  hyperedges data (S n) =
  hyperedges data n ++
    (if decide (node_tuple data n ∈ node_tuple data <$> seq 0 n)
     then [] else [node_tuple data n]).
Proof.
  unfold hyperedges.
  by rewrite one_hop_neighborhoods_S, hyperedges_of_snoc, sorted_one_hop.
Qed.

Lemma hyperedges_full_iff data n :
  length (hyperedges data n) = n ↔ NoDup (node_tuple data <$> seq 0 n).
Proof.
  induction n as [|n IH]; [split; [constructor|done]|].
  rewrite hyperedges_S, seq_S, fmap_app, length_app. simpl.
  pose proof (hyperedges_length_le data n) as Hle.
  rewrite NoDup_app. case_decide as Hin; simpl; split.
  - lia.
  - intros (_ & Hdisj & _). exfalso. apply (Hdisj _ Hin). left.
  - intros Hlen. split_and!; [apply IH; lia| |apply NoDup_singleton].
    intros t Ht ->%list_elem_of_singleton. done.
  - intros (Hnd & _ & _). apply IH in Hnd. lia.
Qed.

(** X2.  There are never more hyperedges than nodes, the first hyperedge
    is always the tuple of node 0, and the list is shorter than the node
    count exactly when two nodes have neighbour arrays that are
    permutations of each other. *)
Theorem hyperedges_count (data : edge_list) (n : nat) :
  (length (hyperedges data n) ≤ n)%nat
  ∧ hyperedges data (S n) !! 0%nat = Some (node_tuple data 0)
  ∧ ((length (hyperedges data n) < n)%nat ↔
     ∃ i k : nat, (i < k < n)%nat ∧
       neighbors data (Z.of_nat i) ≡ₚ neighbors data (Z.of_nat k)).
Proof.
  split_and!.
  - apply hyperedges_length_le.
  - rewrite hyperedges_first_occurrences, list_lookup_fmap.
    replace (seq 0 (S n)) with (0%nat :: seq 1 n) by done.
    rewrite filter_cons_True; [done|]. intros k Hk. lia.
  - pose proof (hyperedges_length_le data n) as Hle.
    pose proof (hyperedges_full_iff data n) as Hfull.
    split.
    + intros Hlt.
      assert (¬ NoDup (node_tuple data <$> seq 0 n)) as Hdup
        by (intros H%Hfull; lia).
      destruct (decide (Exists (λ k, Exists (λ i, node_tuple data i = node_tuple data k)
                                   (seq 0 k)) (seq 0 n))) as [Hex|Hno].
      * apply Exists_exists in Hex as (k & Hk%elem_of_seq & Hex).
        apply Exists_exists in Hex as (i & Hi%elem_of_seq & E).
        exists i, k. split; [lia|]. by apply sorted_eq_iff.
      * exfalso. apply Hdup. apply NoDup_alt. intros a b t Ha Hb.
        rewrite list_lookup_fmap in Ha, Hb.
        destruct (seq 0 n !! a) as [i|] eqn:Ei; [|done].
        destruct (seq 0 n !! b) as [k|] eqn:Ek; [|done].
        apply lookup_seq in Ei as [-> Ha']. apply lookup_seq in Ek as [-> Hb'].
        simpl in *. injection Ha as Ha. injection Hb as Hb.
        destruct (decide (a = b)) as [|Hne]; [done|]. exfalso. apply Hno.
        apply Exists_exists.
        exists (Nat.max a b). split; [apply elem_of_seq; lia|].
        apply Exists_exists. exists (Nat.min a b).
        split; [apply elem_of_seq; lia|].
        destruct (Nat.max_spec a b) as [[? ->]|[? ->]];
          destruct (Nat.min_spec a b) as [[? ->]|[? ->]]; try lia; congruence.
    + intros (i & k & Hik & Hperm%sorted_eq_iff).
      destruct (decide (length (hyperedges data n) < n)%nat) as [|Hge]; [done|].
      assert (NoDup (node_tuple data <$> seq 0 n)) as Hnd by (apply Hfull; lia).
      exfalso. rewrite NoDup_alt in Hnd.
      assert (i = k); [|lia].
      apply (Hnd i k (node_tuple data i)); rewrite list_lookup_fmap.
      * by rewrite lookup_seq_lt by lia.
      * rewrite lookup_seq_lt by lia. simpl. f_equal. done.
Qed.

(** X3.  Edges whose source is not one of the [n] nodes are never read:
    dropping them from the edge list changes neither the hyperedges nor
    the incidence result. *)
Theorem foreign_sources_ignored (data : edge_list) (n : nat) :
  hyperedges (filter (λ e, in_range n e.1) data) n = hyperedges data n
  ∧ incidence_1 (filter (λ e, in_range n e.1) data) n = incidence_1 data n.
Proof.
  assert (one_hop_neighborhoods (filter (λ e, in_range n e.1) data) n
          = one_hop_neighborhoods data n) as E.
  { unfold one_hop_neighborhoods. apply list_fmap_ext.
    intros j i Hi%lookup_seq. unfold neighbors. f_equal.
    rewrite list_filter_filter. apply list_filter_iff.
    intros [s d]. simpl. unfold in_range. split; [tauto|]. intros ->. lia. }
  unfold incidence_1, hyperedges. by rewrite E.
Qed.

(** ** Indexing errors of the incidence cell *)

Section indexing.
Implicit Types (M : matrix) (n c : nat).

Lemma np_index_None n x : np_index n x = None ↔ ¬ indexable n x.
Proof.
  unfold np_index, indexable. repeat case_decide; split; try done; lia.
Qed.

Lemma np_index_mod n x :
  indexable n x → np_index n x = Some (Z.to_nat (x `mod` Z.of_nat n)).
Proof.
  unfold np_index, indexable. intros Hx. repeat case_decide; try lia.
  - by rewrite Z.mod_small by lia.
  - f_equal. f_equal. apply (Z.mod_unique _ _ (-1)); lia.
Qed.

Lemma indexable_mod n x : indexable n x → in_range n (x `mod` Z.of_nat n).
Proof. unfold indexable, in_range. intros H. apply Z.mod_pos_bound. lia. Qed.

Lemma set_one_length M row c M' :
  set_one M row c = Ok M' → length M' = length M.
Proof.
  unfold set_one. destruct (np_index _ _); [|done].
  intros [= <-]. apply length_alter.
Qed.

Lemma set_one_mod M row c :
  indexable (length M) row →
  set_one M row c = set_one M (row `mod` Z.of_nat (length M)) c
  ∧ ∃ M', set_one M row c = Ok M'.
Proof.
  intros Hrow. unfold set_one.
  rewrite (np_index_mod _ row Hrow).
  rewrite (np_index_in_range _ _ (indexable_mod _ _ Hrow)). eauto.
Qed.

Lemma fill_column_mod n M c rows :
  length M = n → Forall (indexable n) rows →
  fill_column M c rows = fill_column M c ((λ x, x `mod` Z.of_nat n) <$> rows)
  ∧ ∃ M', fill_column M c rows = Ok M' ∧ length M' = n.
Proof.
  intros Hn Hrows. revert M Hn.
  induction Hrows as [|row rows Hrow Hrows IH]; intros M Hn; simpl.
  - eauto.
  - subst n. destruct (set_one_mod M row c Hrow) as [<- [M1 HM1]].
    rewrite HM1. simpl. apply IH. by eapply set_one_length.
Qed.

Lemma fill_from_mod n M c hes :
  length M = n → Forall (Forall (indexable n)) hes →
  fill_from M c hes =
    fill_from M c ((λ he : list Z, (λ x, x `mod` Z.of_nat n) <$> he) <$> hes)
  ∧ ∃ M', fill_from M c hes = Ok M' ∧ length M' = n.
Proof.
  intros Hn Hhes. revert M c Hn.
  induction Hhes as [|he hes Hhe Hhes IH]; intros M c Hn; simpl.
  - eauto.
  - destruct (fill_column_mod n M c he Hn Hhe) as [<- (M1 & -> & HM1)].
    simpl. by apply IH.
Qed.

Lemma fill_column_IndexError M c rows :
  ¬ Forall (indexable (length M)) rows → fill_column M c rows = Raise IndexError.
Proof.
  revert M. induction rows as [|row rows IH]; intros M Hbad; simpl.
  - destruct Hbad. constructor.
  - unfold set_one at 1. destruct (np_index (length M) row) as [r|] eqn:E; [|done].
    simpl. apply IH. rewrite length_alter. intros Hrest. apply Hbad.
    constructor; [|done]. apply dec_stable. intros Hrow%np_index_None. congruence.
Qed.

Lemma fill_from_IndexError n M c hes :
  length M = n → ¬ Forall (Forall (indexable n)) hes →
  fill_from M c hes = Raise IndexError.
Proof.
  revert M c. induction hes as [|he hes IH]; intros M c Hn Hbad; simpl.
  - destruct Hbad. constructor.
  - destruct (decide (Forall (indexable n) he)) as [Hhe|Hhe].
    + destruct (fill_column_mod n M c he Hn Hhe) as [_ (M1 & -> & HM1)].
      simpl. apply IH; [done|]. intros Hrest. apply Hbad. by constructor.
    + subst n. by rewrite fill_column_IndexError.
Qed.

Lemma incidence_of_IndexError n hes :
  incidence_of n hes = Raise IndexError ↔ ¬ Forall (Forall (indexable n)) hes.
Proof.
  unfold incidence_of, dense_incidence. split.
  - intros Herr Hall.
    destruct (fill_from_mod n (np_zeros n (length hes)) 0 hes)
      as [_ (M & HM & _)]; [apply length_replicate|done|].
    rewrite HM in Herr. simpl in Herr.
    by destruct (check_incidence_total (length hes) M) as [H|[H|H]];
      rewrite H in Herr.
  - intros Hbad. rewrite (fill_from_IndexError n); [done|apply length_replicate|done].
Qed.
End indexing.

(** X4.  The incidence cell raises [IndexError] exactly when some node
    has an edge to a target that numpy cannot index in [n] rows, that is,
    a target outside [-n, n). *)
Theorem incidence_IndexError_iff (data : edge_list) (n : nat) :
  incidence_1 data n = Raise IndexError ↔
  ∃ (i : nat) (x : Z),
    (i < n)%nat ∧ (Z.of_nat i, x) ∈ data ∧ ¬ indexable n x.
Proof.
  unfold incidence_1. rewrite incidence_of_IndexError. split.
  - intros (he & Hhe & Hbad)%not_Forall_Exists%Exists_exists; [|apply _].
    apply not_Forall_Exists in Hbad; [|apply _].
    apply Exists_exists in Hbad as (x & Hx & Hbad).
    apply elem_of_hyperedges in Hhe as (i & Hi & ->).
    exists i, x. split_and!; [done| |done].
    by apply elem_of_neighbors, elem_of_sorted.
  - intros (i & x & Hi & Hedge & Hbad) Hall.
    rewrite Forall_forall in Hall.
    assert (node_tuple data i ∈ hyperedges data n) as Hin
      by (apply elem_of_hyperedges; eauto).
    specialize (Hall _ Hin). rewrite Forall_forall in Hall.
    apply Hbad, Hall. by apply elem_of_sorted, elem_of_neighbors.
Qed.

(** X5.  An index in [-n, 0) is not rejected: it marks the row counted
    from the end, so the cell behaves as if every index had been reduced
    modulo [n]. *)
Theorem negative_indices_wrap (n : nat) (hes : list hyperedge) :
  Forall (Forall (indexable n)) hes →
  incidence_of n hes = incidence_of n ((λ he : list Z, (λ x, x `mod` Z.of_nat n) <$> he) <$> hes)
  ∧ hyperedges_over n ((λ he : list Z, (λ x, x `mod` Z.of_nat n) <$> he) <$> hes).
Proof.
  intros Hhes. split.
  - unfold incidence_of, dense_incidence. rewrite length_fmap.
    destruct (fill_from_mod n (np_zeros n (length hes)) 0 hes) as [<- _];
      [apply length_replicate|done..].
  - apply Forall_fmap. eapply Forall_impl; [done|]. intros he Hhe. simpl.
    apply Forall_fmap. eapply Forall_impl; [done|]. intros x. apply indexable_mod.
Qed.

Lemma negative_indices_wrap_witness :
  Forall (Forall (indexable 3)) [[-1; 0]; [1]]
  ∧ incidence_of 3 [[-1; 0]; [1]]
    = incidence_of 3 ((λ he : list Z, (λ x, x `mod` Z.of_nat 3) <$> he) <$> [[-1; 0]; [1]])
  ∧ hyperedges_over 3 ((λ he : list Z, (λ x, x `mod` Z.of_nat 3) <$> he) <$> [[-1; 0]; [1]]).
Proof.
  split.
  - apply (bool_decide_unpack _). vm_compute. exact I.
  - apply (negative_indices_wrap 3 [[-1; 0]; [1]]).
    apply (bool_decide_unpack _). vm_compute. exact I.
Defined.

(** ** Outcome of the incidence cell in terms of the graph *)

Lemma incidence_of_message n hes :
  hyperedges_over n hes →
  (incidence_of n hes = Raise (AssertionError "Some hyperedges are empty")
     ↔ [] ∈ hes)
  ∧ (incidence_of n hes = Raise (AssertionError "Some nodes are not in any hyperedges")
     ↔ [] ∉ hes ∧ ∃ r, (r < n)%nat ∧ ∀ he, he ∈ hes → Z.of_nat r ∉ he).
Proof.
  intros Hhes.
  destruct (incidence_of_cases n hes Hhes) as (M & _ & -> & Hcols & Hrows).
  unfold check_incidence. rewrite <- Hrows. clear Hrows.
  destruct (all_positive (col_sums _ M)) eqn:Ec; simpl.
  - apply all_positive_Forall, Hcols in Ec.
    destruct (all_positive (row_sums M)) eqn:Er; simpl.
    + apply all_positive_Forall in Er. split; split; try done.
      intros [_ H]. done.
    + assert (¬ Forall (λ s, 1 ≤ s)%nat (row_sums M)) as Hr.
      { intros H%all_positive_Forall. congruence. }
      split; split; try done.
  - assert ([] ∈ hes) as Hempty.
    { destruct (decide ([] ∈ hes)) as [|Hne]; [done|].
      apply Hcols, all_positive_Forall in Hne. congruence. }
    split; split; try done. intros [H _]. done.
Qed.

Section degrees.
Variables (data : edge_list) (n : nat).

Lemma empty_hyperedge_iff :
  [] ∈ hyperedges data n ↔
  ∃ i : nat, (i < n)%nat ∧ neighbors data (Z.of_nat i) = [].
Proof.
  rewrite elem_of_hyperedges. split.
  - intros (i & Hi & E). exists i. split; [done|]. by apply sorted_nil_inv.
  - intros (i & Hi & E). exists i. split; [done|].
    unfold node_tuple. by rewrite E.
Qed.

Lemma uncovered_node_iff :
  edges_over n data →
  (∃ r : nat, (r < n)%nat ∧ ∀ he, he ∈ hyperedges data n → Z.of_nat r ∉ he) ↔
  (∃ r : nat, (r < n)%nat ∧ ∀ s, (s, Z.of_nat r) ∉ data).
Proof.
  intros Hdata. unfold edges_over in Hdata. rewrite Forall_forall in Hdata.
  split; intros (r & Hr & Hnone); exists r; (split; [done|]).
  - intros s Hs. destruct (Hdata _ Hs) as [[? ?] _]. simpl in *.
    apply (Hnone (node_tuple data (Z.to_nat s))).
    + apply elem_of_hyperedges. exists (Z.to_nat s). split; [lia|done].
    + apply elem_of_sorted, elem_of_neighbors. by rewrite Z2Nat.id by lia.
  - intros he (i & Hi & ->)%elem_of_hyperedges Hin%elem_of_sorted%elem_of_neighbors.
    by apply (Hnone (Z.of_nat i)).
Qed.

Lemma has_in_edge_dec (r : Z) : Decision (∃ s, (s, r) ∈ data).
Proof.
  destruct (decide (Exists (λ e, e.2 = r) data)) as [H|H]; [left|right].
  - apply Exists_exists in H as ([s d] & Hin & E). simpl in E. subst. eauto.
  - intros [s Hs]. apply H, Exists_exists. by exists (s, r).
Defined.
End degrees.

Lemma incidence_by_degree (data : edge_list) (n : nat) :
  edges_over n data →
  (incidence_1 data n = Raise (AssertionError "Some hyperedges are empty")
     ↔ ∃ i : nat, (i < n)%nat ∧ neighbors data (Z.of_nat i) = [])
  ∧ (incidence_1 data n
       = Raise (AssertionError "Some nodes are not in any hyperedges")
     ↔ (∀ i : nat, (i < n)%nat → neighbors data (Z.of_nat i) ≠ [])
       ∧ ∃ r : nat, (r < n)%nat ∧ ∀ s, (s, Z.of_nat r) ∉ data)
  ∧ ((∃ M, incidence_1 data n = Ok M)
     ↔ ∀ i : nat, (i < n)%nat →
         neighbors data (Z.of_nat i) ≠ [] ∧ ∃ s, (s, Z.of_nat i) ∈ data).
Proof.
  intros Hdata. pose proof (hyperedges_in_range data n Hdata) as Hhes.
  destruct (incidence_of_message n _ Hhes) as [Hfirst Hsecond].
  destruct (incidence_of_failed_iff n _ Hhes) as [_ Hok].
  fold (incidence_1 data n) in Hfirst, Hsecond, Hok.
  pose proof (empty_hyperedge_iff data n) as Hempty.
  pose proof (uncovered_node_iff data n Hdata) as Hunc.
  split_and!.
  - by rewrite Hfirst.
  - rewrite Hsecond, Hunc, Hempty. split; intros [H1 H2]; (split; [|done]).
    + intros i Hi E. apply H1. eauto.
    + intros (i & Hi & E). by apply (H1 i).
  - rewrite Hok. unfold degenerate. rewrite Hunc, Hempty. split.
    + intros Hnd i Hi. split.
      * intros E. apply Hnd. left. eauto.
      * destruct (has_in_edge_dec data (Z.of_nat i)) as [|Hno]; [done|].
        exfalso. apply Hnd. right. exists i. split; [done|]. intros s Hs.
        apply Hno. eauto.
    + intros Hall [(i & Hi & E)|(r & Hr & Hno)].
      * by destruct (Hall i Hi) as [? _].
      * destruct (Hall r Hr) as [_ [s Hs]]. by apply (Hno s).
Qed.


(** X6.  On an edge list over [n] nodes the outcome of the incidence cell
    is decided by the degrees: the first assertion fires when some node has
    no outgoing edge; the second fires when every node has an outgoing edge
    but some node has no incoming edge; and the matrix is produced when
    every node has both. *)
Theorem incidence_outcome_by_degree (data : edge_list) (n : nat) :
  edges_over n data →
  (incidence_1 data n = Raise (AssertionError "Some hyperedges are empty")
     ↔ ∃ i : nat, (i < n)%nat ∧ neighbors data (Z.of_nat i) = [])
  ∧ (incidence_1 data n
       = Raise (AssertionError "Some nodes are not in any hyperedges")
     ↔ (∀ i : nat, (i < n)%nat → neighbors data (Z.of_nat i) ≠ [])
       ∧ ∃ r : nat, (r < n)%nat ∧ ∀ s, (s, Z.of_nat r) ∉ data)
  ∧ ((∃ M, incidence_1 data n = Ok M)
     ↔ ∀ i : nat, (i < n)%nat →
         neighbors data (Z.of_nat i) ≠ [] ∧ ∃ s, (s, Z.of_nat i) ∈ data).
Proof. apply incidence_by_degree. Qed.

Lemma incidence_outcome_by_degree_witness :
  edges_over 3 [(0,1); (1,2); (2,1)]
  ∧ (incidence_1 [(0,1); (1,2); (2,1)] 3
       = Raise (AssertionError "Some hyperedges are empty")
     ↔ ∃ i : nat, (i < 3)%nat ∧ neighbors [(0,1); (1,2); (2,1)] (Z.of_nat i) = [])
  ∧ (incidence_1 [(0,1); (1,2); (2,1)] 3
       = Raise (AssertionError "Some nodes are not in any hyperedges")
     ↔ (∀ i : nat, (i < 3)%nat → neighbors [(0,1); (1,2); (2,1)] (Z.of_nat i) ≠ [])
       ∧ ∃ r : nat, (r < 3)%nat ∧ ∀ s, (s, Z.of_nat r) ∉ [(0,1); (1,2); (2,1)])
  ∧ ((∃ M, incidence_1 [(0,1); (1,2); (2,1)] 3 = Ok M)
     ↔ ∀ i : nat, (i < 3)%nat →
         neighbors [(0,1); (1,2); (2,1)] (Z.of_nat i) ≠ []
         ∧ ∃ s, (s, Z.of_nat i) ∈ [(0,1); (1,2); (2,1)]).
Proof.
  split.
  - apply (bool_decide_unpack _). vm_compute. exact I.
  - apply (incidence_outcome_by_degree [(0,1); (1,2); (2,1)] 3).
    apply (bool_decide_unpack _). vm_compute. exact I.
Defined.

(** X7.  On an undirected edge list (every edge listed in both
    directions) over [n] nodes the second assertion can never fire: the
    cell either produces the matrix, when no node is isolated, or stops on
    the first assertion. *)
Theorem undirected_never_uncovered (data : edge_list) (n : nat) :
  edges_over n data → symmetric data →
  incidence_1 data n
    ≠ Raise (AssertionError "Some nodes are not in any hyperedges")
  ∧ ((∃ M, incidence_1 data n = Ok M)
     ↔ ∀ i : nat, (i < n)%nat → ∃ x, (Z.of_nat i, x) ∈ data)
  ∧ ((∀ M, incidence_1 data n ≠ Ok M)
     ↔ incidence_1 data n = Raise (AssertionError "Some hyperedges are empty")).
Proof.
  intros Hdata Hsym.
  destruct (incidence_by_degree data n Hdata) as (Hfirst & Hsecond & Hok).
  assert (∀ i : nat, neighbors data (Z.of_nat i) ≠ [] ↔
                     ∃ x, (Z.of_nat i, x) ∈ data) as Hout.
  { intros i. split.
    - destruct (neighbors data (Z.of_nat i)) as [|x l] eqn:E; [done|].
      intros _. exists x. apply elem_of_neighbors. rewrite E. left.
    - intros [x Hx%elem_of_neighbors] E. rewrite E in Hx. by apply elem_of_nil in Hx. }
  assert (incidence_1 data n
    ≠ Raise (AssertionError "Some nodes are not in any hyperedges")) as Hnot.
  { intros (Hall & r & Hr & Hno)%Hsecond.
    apply Hall, Hout in Hr as [x Hx]. by apply (Hno x), Hsym. }
  split_and!; [done| |].
  - rewrite Hok. split.
    + intros H i Hi. apply Hout. by apply H.
    + intros H i Hi. destruct (H i Hi) as [x Hx]. split; [apply Hout; eauto|].
      exists x. by apply Hsym.
  - split; [|intros -> M; done].
    intros Hfail.
    pose proof (hyperedges_in_range data n Hdata) as Hhes.
    destruct (incidence_of_cases n _ Hhes) as (M & _ & E & _).
    fold (incidence_1 data n) in E.
    destruct (check_incidence_total (length (hyperedges data n)) M) as [H|[H|H]];
      rewrite <- E in H; [by apply Hfail in H|done|done].
Qed.

Lemma undirected_never_uncovered_witness :
  edges_over 5 ring_undirected ∧ symmetric ring_undirected
  ∧ incidence_1 ring_undirected 5
      ≠ Raise (AssertionError "Some nodes are not in any hyperedges")
  ∧ ((∃ M, incidence_1 ring_undirected 5 = Ok M)
     ↔ ∀ i : nat, (i < 5)%nat → ∃ x, (Z.of_nat i, x) ∈ ring_undirected)
  ∧ ((∀ M, incidence_1 ring_undirected 5 ≠ Ok M)
     ↔ incidence_1 ring_undirected 5
         = Raise (AssertionError "Some hyperedges are empty")).
Proof.
  assert (symmetric ring_undirected) as Hsym.
  { intros s d Hin. unfold ring_undirected in *.
    repeat (apply elem_of_cons in Hin as [[= -> ->]|Hin];
            [apply (bool_decide_unpack _); vm_compute; exact I|]).
    by apply elem_of_nil in Hin. }
  split; [apply (bool_decide_unpack _); vm_compute; exact I|].
  split; [exact Hsym|].
  apply (undirected_never_uncovered ring_undirected 5); [|exact Hsym].
  apply (bool_decide_unpack _). vm_compute. exact I.
Defined.

(** ** Row sums *)

Lemma table_row_sum_hyperedges n hes M r :
  has_shape n (length hes) M →
  (∀ r c, cell M r c = if decide (member hes r c) then 1%nat else 0%nat) →
  (r < n)%nat →
  row_sums M !! r =
    Some (length (filter (λ he, Z.of_nat r ∈ he) hes)).
Proof.
  intros Hshape Hcell Hr. pose proof Hshape as [Hn Hm].
  destruct (lookup_lt_is_Some_2 M r) as [line Hline]; [lia|].
  unfold row_sums. rewrite list_lookup_fmap, Hline. simpl. f_equal.
  rewrite <- sum_indicator. f_equal.
  assert (length line = length hes) as Hlen.
  { rewrite Forall_forall in Hm. apply Hm. by eapply list_elem_of_lookup_2. }
  apply list_eq. intros c. rewrite list_lookup_fmap.
  destruct (hes !! c) as [he|] eqn:Ehe; simpl.
  - pose proof (lookup_lt_Some _ _ _ Ehe) as Hc.
    pose proof (cell_lookup n (length hes) M r c Hshape Hr Hc) as Hlk.
    rewrite Hline in Hlk. simpl in Hlk. rewrite Hlk, Hcell. f_equal.
    destruct (decide (Z.of_nat r ∈ he)) as [Hin|Hout].
    + rewrite decide_True; [done|]. by exists he.
    + rewrite decide_False; [done|]. intros [he' [E Hin]]. congruence.
  - apply lookup_ge_None. apply lookup_ge_None in Ehe. lia.
Qed.

(** X8.  Over an edge list on [n] nodes, the sum of row [r] of the matrix
    is the number of hyperedges that list node [r], and it is at most the
    number of hyperedges. *)
Theorem row_sum_counts_hyperedges (data : edge_list) (n r : nat) (M : matrix) :
  edges_over n data → (r < n)%nat →
  dense_incidence n (hyperedges data n) = Ok M →
  row_sums M !! r
    = Some (length (filter (λ he, Z.of_nat r ∈ he) (hyperedges data n)))
  ∧ (length (filter (λ he, Z.of_nat r ∈ he) (hyperedges data n))
     ≤ length (hyperedges data n))%nat.
Proof.
  intros Hdata Hr HM. pose proof (hyperedges_in_range data n Hdata) as Hhes.
  destruct (dense_incidence_spec n _ Hhes) as (M' & HM' & Hshape & Hcell).
  assert (M' = M) as -> by congruence.
  split; [by apply (table_row_sum_hyperedges n)|apply length_filter].
Qed.

Lemma row_sum_counts_hyperedges_witness :
  edges_over 3 shared_neighbor ∧ (1 < 3)%nat
  ∧ dense_incidence 3 (hyperedges shared_neighbor 3) = Ok [[0; 1]; [1; 0]; [0; 0]]%nat
  ∧ row_sums [[0; 1]; [1; 0]; [0; 0]]%nat !! 1%nat
    = Some (length (filter (λ he, Z.of_nat 1 ∈ he) (hyperedges shared_neighbor 3)))
  ∧ (length (filter (λ he, Z.of_nat 1 ∈ he) (hyperedges shared_neighbor 3))
     ≤ length (hyperedges shared_neighbor 3))%nat.
Proof.
  split; [apply (bool_decide_unpack _); vm_compute; exact I|].
  split; [lia|]. split; [vm_compute; reflexivity|].
  apply (row_sum_counts_hyperedges shared_neighbor 3 1).
  - apply (bool_decide_unpack _). vm_compute. exact I.
  - lia.
  - vm_compute. reflexivity.
Defined.

(** ** Hyperedge statistics *)

Section statistics.
Implicit Types (l : list nat).

Lemma foldl_min_spec x l :
  (∀ y, y ∈ x :: l → foldl Nat.min x l ≤ y)%nat ∧ foldl Nat.min x l ∈ x :: l.
Proof.
  revert x. induction l as [|z l IH]; intros x; simpl.
  - split; [|left]. by intros y ->%list_elem_of_singleton.
  - destruct (IH (Nat.min x z)) as [Hle Hin]. split.
    + intros y [->|[->|Hy]%elem_of_cons]%elem_of_cons.
      * etransitivity; [apply Hle; left|lia].
      * etransitivity; [apply Hle; left|lia].
      * apply Hle. by right.
    + apply elem_of_cons in Hin as [->|Hin].
      * destruct (Nat.min_spec x z) as [[_ ->]|[_ ->]]; [left|right; left].
      * by do 2 right.
Qed.

Lemma foldl_max_spec x l :
  (∀ y, y ∈ x :: l → y ≤ foldl Nat.max x l)%nat ∧ foldl Nat.max x l ∈ x :: l.
Proof.
  revert x. induction l as [|z l IH]; intros x; simpl.
  - split; [|left]. by intros y ->%list_elem_of_singleton.
  - destruct (IH (Nat.max x z)) as [Hle Hin]. split.
    + intros y [->|[->|Hy]%elem_of_cons]%elem_of_cons.
      * etransitivity; [|apply Hle; left]. lia.
      * etransitivity; [|apply Hle; left]. lia.
      * apply Hle. by right.
    + apply elem_of_cons in Hin as [->|Hin].
      * destruct (Nat.max_spec x z) as [[_ ->]|[_ ->]]; [right; left|left].
      * by do 2 right.
Qed.

Lemma hyperedge_statistics_spec (hes : list hyperedge) :
  match hyperedge_statistics hes with
  | Raised e => e = ValueError ∧ hes = []
  | Returned st =>
      hes ≠ []
      ∧ (∀ he, he ∈ hes → min_size st ≤ length he ≤ max_size st)%nat
      ∧ (∃ he, he ∈ hes ∧ length he = min_size st)
      ∧ (∃ he, he ∈ hes ∧ length he = max_size st)
      ∧ num_single_node_hyperedges st
        = length (filter (λ he, length he = 1%nat) hes)
  end.
Proof.
  unfold hyperedge_statistics. destruct hes as [|he0 hes]; [done|].
  simpl py_min. simpl py_max. cbv iota.
  destruct (foldl_min_spec (length he0) (length <$> hes)) as [Hmin Hmin_in].
  destruct (foldl_max_spec (length he0) (length <$> hes)) as [Hmax Hmax_in].
  change (length he0 :: (length <$> hes)) with (length <$> (he0 :: hes)) in *.
  cbn [min_size max_size num_single_node_hyperedges].
  split_and!.
  - done.
  - intros he Hhe. split; [apply Hmin|apply Hmax]; apply list_elem_of_fmap; eauto.
  - apply list_elem_of_fmap in Hmin_in as (he & E & Hhe). eauto.
  - apply list_elem_of_fmap in Hmax_in as (he & E & Hhe). eauto.
  - rewrite <- list_fmap_compose.
    apply (sum_indicator (λ he : hyperedge, length he = 1%nat)).
Qed.
End statistics.

Lemma length_filter_fmap {A B} (f : A → B) (P : B → Prop)
    `{!∀ y, Decision (P y)} (l : list A) :
  length (filter P (f <$> l)) = length (filter (λ x, P (f x)) l).
Proof.
  induction l as [|x l IH]; [done|].
  rewrite fmap_cons, !filter_cons. case_decide; simpl; by rewrite IH.
Qed.

Lemma length_filter_mono {A} (P Q : A → Prop)
    `{!∀ x, Decision (P x), !∀ x, Decision (Q x)} (l : list A) :
  (∀ x, P x → Q x) → (length (filter P l) ≤ length (filter Q l))%nat.
Proof.
  intros HPQ. induction l as [|x l IH]; [done|].
  rewrite !filter_cons. destruct (decide (P x)) as [HP|HP].
  - rewrite decide_True by auto. simpl. lia.
  - case_decide; simpl; lia.
Qed.

Lemma hyperedges_nil_iff data n : hyperedges data n = [] ↔ n = 0%nat.
Proof.
  split; [|by intros ->].
  destruct n as [|n]; [done|]. intros E.
  assert (node_tuple data 0 ∈ hyperedges data (S n)) as Hin
    by (apply elem_of_hyperedges; exists 0%nat; split; [lia|done]).
  rewrite E in Hin. by apply elem_of_nil in Hin.
Qed.

(** X9.  The statistics cell raises [ValueError] exactly when there are no
    nodes, a case the incidence cell itself would accept; otherwise the
    sizes it reports bound the length of every hyperedge and are attained. *)
Theorem statistics_of_hyperedges (data : edge_list) (n : nat)
    (st : hyperedge_stats) :
  (hyperedge_statistics (hyperedges data n) = Raised ValueError ↔ n = 0%nat)
  ∧ incidence_1 data 0 = Ok []
  ∧ (hyperedge_statistics (hyperedges data n) = Returned st →
     (0 < n)%nat
     ∧ hyperedge_sizes st = length <$> hyperedges data n
     ∧ (∀ he, he ∈ hyperedges data n →
          min_size st ≤ length he ≤ max_size st)%nat
     ∧ (∃ he, he ∈ hyperedges data n ∧ length he = min_size st)
     ∧ (∃ he, he ∈ hyperedges data n ∧ length he = max_size st)).
Proof.
  pose proof (hyperedge_statistics_spec (hyperedges data n)) as Hspec.
  split_and!.
  - rewrite <- hyperedges_nil_iff.
    destruct (hyperedge_statistics (hyperedges data n)) as [st'|e].
    + split; [done|]. by destruct Hspec as [? _].
    + destruct Hspec as [-> ->]. done.
  - done.
  - intros E. rewrite E in Hspec.
    destruct Hspec as (Hne & Hbounds & Hmin & Hmax & _).
    split_and!; try done.
    + destruct n; [by destruct Hne|lia].
    + unfold hyperedge_statistics in E.
      destruct (py_min _); [|done]. destruct (py_max _); [|done].
      by injection E as <-.
Qed.

Lemma statistics_of_hyperedges_witness :
  hyperedge_statistics (hyperedges shared_neighbor 3)
    = Returned (HyperedgeStats [1; 1] 1 1 2)%nat
  ∧ (0 < 3)%nat
  ∧ hyperedge_sizes (HyperedgeStats [1; 1] 1 1 2)%nat
    = length <$> hyperedges shared_neighbor 3
  ∧ (∀ he, he ∈ hyperedges shared_neighbor 3 → 1 ≤ length he ≤ 1)%nat
  ∧ (∃ he, he ∈ hyperedges shared_neighbor 3 ∧ length he = 1%nat)
  ∧ (∃ he, he ∈ hyperedges shared_neighbor 3 ∧ length he = 1%nat).
Proof.
  split; [vm_compute; reflexivity|].
  apply (proj2 (proj2 (statistics_of_hyperedges shared_neighbor 3
                         (HyperedgeStats [1; 1] 1 1 2)%nat))).
  vm_compute. reflexivity.
Defined.

(** X10.  On an edge list over [n] nodes, the reported minimum size is 0
    exactly when the incidence cell stops on its first assertion; and when
    the edge list is undirected and the minimum is at least 1, the
    incidence cell produces the matrix. *)
Theorem min_size_predicts_assertion (data : edge_list) (n : nat)
    (st : hyperedge_stats) :
  edges_over n data →
  hyperedge_statistics (hyperedges data n) = Returned st →
  (min_size st = 0%nat
     ↔ incidence_1 data n = Raise (AssertionError "Some hyperedges are empty"))
  ∧ (symmetric data → (1 ≤ min_size st)%nat → ∃ M, incidence_1 data n = Ok M).
Proof.
  intros Hdata Hst.
  pose proof (hyperedge_statistics_spec (hyperedges data n)) as Hspec.
  rewrite Hst in Hspec. destruct Hspec as (_ & Hbounds & (he0 & Hhe0 & Hmin) & _).
  pose proof (hyperedges_in_range data n Hdata) as Hhes.
  destruct (incidence_of_message n _ Hhes) as [Hfirst _].
  fold (incidence_1 data n) in Hfirst.
  assert (min_size st = 0%nat ↔ [] ∈ hyperedges data n) as Hzero.
  { split.
    - intros E. rewrite E in Hmin. by apply nil_length_inv in Hmin as <-.
    - intros Hin. specialize (Hbounds _ Hin). simpl in Hbounds. lia. }
  split; [by rewrite Hfirst|].
  intros Hsym Hpos.
  apply (incidence_by_degree data n Hdata). intros i Hi.
  assert (node_tuple data i ∈ hyperedges data n) as Hin
    by (apply elem_of_hyperedges; eauto).
  specialize (Hbounds _ Hin). unfold node_tuple in Hbounds.
  rewrite sorted_length in Hbounds.
  destruct (neighbors data (Z.of_nat i)) as [|x l] eqn:E; [simpl in Hbounds; lia|].
  split; [done|]. exists x. apply Hsym, elem_of_neighbors. rewrite E. left.
Qed.

Lemma min_size_predicts_assertion_witness :
  (edges_over 5 ring_undirected
   ∧ hyperedge_statistics (hyperedges ring_undirected 5)
     = Returned (HyperedgeStats [2; 2; 2; 2; 2] 2 2 0)%nat
   ∧ symmetric ring_undirected
   ∧ (1 ≤ min_size (HyperedgeStats [2; 2; 2; 2; 2] 2 2 0)%nat)%nat
   ∧ ∃ M, incidence_1 ring_undirected 5 = Ok M)
  ∧ (edges_over 3 [(0,1); (1,0)]
     ∧ hyperedge_statistics (hyperedges [(0,1); (1,0)] 3)
       = Returned (HyperedgeStats [1; 1; 0] 0 1 2)%nat
     ∧ min_size (HyperedgeStats [1; 1; 0] 0 1 2)%nat = 0%nat
     ∧ incidence_1 [(0,1); (1,0)] 3
       = Raise (AssertionError "Some hyperedges are empty")).
Proof.
  assert (edges_over 5 ring_undirected) as Hring
    by (apply (bool_decide_unpack _); vm_compute; exact I).
  assert (symmetric ring_undirected) as Hsym.
  { intros s d Hin. unfold ring_undirected in *.
    repeat (apply elem_of_cons in Hin as [[= -> ->]|Hin];
            [apply (bool_decide_unpack _); vm_compute; exact I|]).
    by apply elem_of_nil in Hin. }
  assert (edges_over 3 [(0,1); (1,0)]) as Hpath
    by (apply (bool_decide_unpack _); vm_compute; exact I).
  split.
  - split; [exact Hring|]. split; [vm_compute; reflexivity|].
    split; [exact Hsym|]. split; [simpl; lia|].
    apply (proj2 (min_size_predicts_assertion ring_undirected 5
                    (HyperedgeStats [2; 2; 2; 2; 2] 2 2 0)%nat Hring
                    ltac:(vm_compute; reflexivity))).
    + exact Hsym.
    + simpl. lia.
  - split; [exact Hpath|]. split; [vm_compute; reflexivity|].
    split; [reflexivity|].
    apply (proj1 (min_size_predicts_assertion [(0,1); (1,0)] 3
                    (HyperedgeStats [1; 1; 0] 0 1 2)%nat Hpath
                    ltac:(vm_compute; reflexivity))).
    reflexivity.
Defined.

(** X11.  The number of single-node hyperedges that the cell prints is at
    most the number of nodes with exactly one outgoing edge; nodes that
    share their only neighbour are counted once. *)
Theorem single_node_hyperedges_bound (data : edge_list) (n : nat)
    (st : hyperedge_stats) :
  hyperedge_statistics (hyperedges data n) = Returned st →
  num_single_node_hyperedges st
    = length (filter (λ he, length he = 1%nat) (hyperedges data n))
  ∧ (num_single_node_hyperedges st
     ≤ length (filter (λ i : nat, length (neighbors data (Z.of_nat i)) = 1%nat)
                 (seq 0 n)))%nat.
Proof.
  intros Hst.
  pose proof (hyperedge_statistics_spec (hyperedges data n)) as Hspec.
  rewrite Hst in Hspec. destruct Hspec as (_ & _ & _ & _ & ->).
  split; [done|].
  rewrite hyperedges_first_occurrences, length_filter_fmap.
  rewrite list_filter_filter. apply length_filter_mono.
  intros i [Hlen _]. unfold node_tuple in Hlen. by rewrite sorted_length in Hlen.
Qed.

Lemma single_node_hyperedges_bound_witness :
  hyperedge_statistics (hyperedges shared_neighbor 3)
    = Returned (HyperedgeStats [1; 1] 1 1 2)%nat
  ∧ num_single_node_hyperedges (HyperedgeStats [1; 1] 1 1 2)%nat
    = length (filter (λ he, length he = 1%nat) (hyperedges shared_neighbor 3))
  ∧ (num_single_node_hyperedges (HyperedgeStats [1; 1] 1 1 2)%nat
     ≤ length (filter (λ i : nat,
                  length (neighbors shared_neighbor (Z.of_nat i)) = 1%nat)
                 (seq 0 3)))%nat.
Proof.
  split; [vm_compute; reflexivity|].
  apply (single_node_hyperedges_bound shared_neighbor 3).
  vm_compute. reflexivity.
Defined.

(** ** Model set-up *)

Lemma remove_dups_singleton_iff (y : list Z) :
  length (remove_dups y) = 1%nat ↔ ∃ c, c ∈ y ∧ ∀ c', c' ∈ y → c' = c.
Proof.
  split.
  - destruct (remove_dups y) as [|c [|c2 l]] eqn:E; try done. intros _.
    exists c. split.
    + apply elem_of_remove_dups. rewrite E. left.
    + intros c' Hc'%elem_of_remove_dups. rewrite E in Hc'.
      by apply list_elem_of_singleton in Hc'.
  - intros (c & Hc & Hall).
    pose proof (NoDup_remove_dups y) as Hnd.
    apply elem_of_remove_dups in Hc.
    destruct (remove_dups y) as [|c1 [|c2 l]] eqn:E.
    + by apply elem_of_nil in Hc.
    + done.
    + exfalso. assert (c1 = c) as ->.
      { apply Hall, elem_of_remove_dups. rewrite E. left. }
      assert (c2 = c) as ->.
      { apply Hall, elem_of_remove_dups. rewrite E. right. left. }
      apply NoDup_cons in Hnd as [Hnotin _]. apply Hnotin. left.
Qed.

(** X12.  With the hyperparameters of the set-up cell, [forward] pools
    over the nodes exactly when the label vector holds a single class;
    with two or more classes (or none) it applies the readout to every
    node's embedding. *)
Theorem forward_pools_iff_single_class {tensor : Type}
    (base_model : tensor → matrix → tensor * tensor)
    (linear max_dim0 : tensor → tensor)
    (y : list Z) (x_0 : tensor) (incidence : matrix) :
  (out_pool (Network_init (task_level (out_channels y))) = true
     ↔ ∃ c, c ∈ y ∧ ∀ c', c' ∈ y → c' = c)
  ∧ ((∃ c, c ∈ y ∧ ∀ c', c' ∈ y → c' = c) →
     forward base_model linear max_dim0
       (Network_init (task_level (out_channels y))) x_0 incidence
     = linear (max_dim0 (base_model x_0 incidence).1))
  ∧ (¬ (∃ c, c ∈ y ∧ ∀ c', c' ∈ y → c' = c) →
     forward base_model linear max_dim0
       (Network_init (task_level (out_channels y))) x_0 incidence
     = linear (base_model x_0 incidence).1)
  ∧ forward base_model linear max_dim0 (Network_init "graph") x_0 incidence
    = linear (max_dim0 (base_model x_0 incidence).1).
Proof.
  assert (out_pool (Network_init (task_level (out_channels y))) = true
          ↔ ∃ c, c ∈ y ∧ ∀ c', c' ∈ y → c' = c) as Hpool.
  { rewrite <- remove_dups_singleton_iff. unfold task_level, out_channels.
    case_decide as Hlen; simpl; split; done. }
  split_and!; [done| | |].
  - intros H%Hpool. unfold forward.
    destruct (base_model x_0 incidence) as [h_0 h_1]. by rewrite H.
  - intros H. unfold forward. destruct (base_model x_0 incidence) as [h_0 h_1].
    destruct (out_pool (Network_init _)) eqn:E; [|done].
    exfalso. apply H, Hpool. done.
  - unfold forward. by destruct (base_model x_0 incidence).
Qed.

Lemma forward_pools_iff_single_class_witness :
  ¬ (∃ c, c ∈ [0; 1; 1] ∧ ∀ c', c' ∈ [0; 1; 1] → c' = c)
  ∧ forward (λ (x : list Z) (_ : matrix), (x, x)) (λ x, x) (take 1)
      (Network_init (task_level (out_channels [0; 1; 1]))) [3; 4] []
    = [3; 4].
Proof.
  assert (¬ (∃ c, c ∈ [0; 1; 1] ∧ ∀ c', c' ∈ [0; 1; 1] → c' = c)) as Hno.
  { intros (c & _ & Hall).
    assert (0 = c) by (apply Hall; left).
    assert (1 = c) by (apply Hall; right; left). lia. }
  split; [exact Hno|].
  apply (proj1 (proj2 (proj2 (forward_pools_iff_single_class
    (λ (x : list Z) (_ : matrix), (x, x)) (λ x, x) (take 1) [0; 1; 1] [3; 4] [])))).
  exact Hno.
Defined.

(** ** Training cells *)

Section cells.
Implicit Types (k n : Z) (l : list Z).

Lemma range_cons lo hi : lo < hi → range lo hi = lo :: range (lo + 1) hi.
Proof.
  intros H. unfold range.
  replace (Z.to_nat (hi - lo)) with (S (Z.to_nat (hi - (lo + 1)))) by lia.
  simpl. f_equal; [lia|]. rewrite <- fmap_S_seq, <- list_fmap_compose.
  apply list_fmap_ext. intros; simpl; lia.
Qed.

Lemma range_snoc lo hi : lo ≤ hi → range lo (hi + 1) = range lo hi ++ [hi].
Proof.
  intros H. unfold range.
  replace (Z.to_nat (hi + 1 - lo)) with (S (Z.to_nat (hi - lo))) by lia.
  rewrite seq_S, fmap_app. simpl. do 2 f_equal. lia.
Qed.

Lemma range_empty lo hi : hi ≤ lo → range lo hi = [].
Proof. intros H. unfold range. by replace (Z.to_nat (hi - lo)) with 0%nat by lia. Qed.

Lemma range_length lo hi : length (range lo hi) = Z.to_nat (hi - lo).
Proof. unfold range. by rewrite length_fmap, length_seq. Qed.

Lemma div_succ a k :
  0 < k → 0 ≤ a →
  (a + 1) / k = a / k + (if decide ((a + 1) `mod` k = 0) then 1 else 0).
Proof.
  intros Hk Ha.
  pose proof (Z.div_mod (a + 1) k). pose proof (Z.mod_pos_bound (a + 1) k).
  pose proof (Z.div_mod a k). pose proof (Z.mod_pos_bound a k).
  case_decide; nia.
Qed.

(** The multiples of [k] among 1..m number [m / k]. *)
Lemma count_multiples k (m : nat) :
  0 < k →
  length (filter (λ e, e `mod` k = 0) (range 1 (Z.of_nat m + 1)))
  = Z.to_nat (Z.of_nat m / k).
Proof.
  intros Hk. induction m as [|m IH].
  - by rewrite Z.div_0_l by lia.
  - replace (Z.of_nat (S m)) with (Z.of_nat m + 1) by lia.
    rewrite range_snoc, filter_app, length_app, IH by lia.
    rewrite div_succ by lia.
    pose proof (Z.div_pos (Z.of_nat m) k).
    rewrite filter_cons, filter_nil. case_decide; simpl; lia.
Qed.

Lemma run_epochs_nonzero (train_ops eval_ops : Z → list op) k l :
  k ≠ 0 →
  run_epochs train_ops eval_ops k l =
  (l ≫= (λ e, train_ops e ++
               (if decide (e `mod` k = 0) then eval_ops e else [])), None).
Proof.
  intros Hk. induction l as [|e l IH]; [done|].
  simpl run_epochs. rewrite decide_False by done. rewrite IH, bind_cons.
  cbn [fst snd]. by rewrite <- app_assoc.
Qed.

Lemma coarse_app a b : coarse (a ++ b) = coarse a ++ coarse b.
Proof. apply omap_app. Qed.

Lemma coarse_unisage k l :
  k ≠ 0 →
  coarse (run_epochs unisage_train_ops unisage_eval_ops k l).1
  = l ≫= epoch_body k.
Proof.
  intros Hk. rewrite run_epochs_nonzero by done. simpl.
  induction l as [|e l IH]; [done|].
  rewrite !bind_cons, !coarse_app, IH. f_equal.
  unfold epoch_body. case_decide; reflexivity.
Qed.

Lemma coarse_unigcnii k l :
  k ≠ 0 →
  coarse (run_epochs unigcnii_train_ops unigcnii_eval_ops k l).1
  = l ≫= epoch_body k.
Proof.
  intros Hk. rewrite run_epochs_nonzero by done. simpl.
  induction l as [|e l IH]; [done|].
  rewrite !bind_cons, !coarse_app, IH. f_equal.
  unfold epoch_body. case_decide; reflexivity.
Qed.

Lemma printed_subsets_app a b :
  printed_subsets (a ++ b) = printed_subsets a ++ printed_subsets b.
Proof. unfold printed_subsets. by rewrite omap_app, join_app. Qed.

(** The loops of the two notebooks are the cells at 5 epochs, interval 5. *)
Lemma cells_at_five :
  coarse (unisage_cell UniSAGE.num_epochs UniSAGE.test_interval).1
    = UniSAGE.training_loop
  ∧ coarse (unigcnii_cell UniGCNII.num_epochs UniGCNII.test_interval).1
    = UniGCNII.training_loop.
Proof. split; reflexivity. Qed.
End cells.

(** X13.  With a positive test interval the UniSAGE cell completes, takes
    one optimizer step per epoch, and reports exactly on the epochs
    1..num_epochs that are multiples of the interval: [num_epochs /
    test_interval] reports, none when there are fewer epochs than the
    interval. *)
Theorem unisage_reports (num_epochs test_interval : Z) :
  0 < test_interval →
  (unisage_cell num_epochs test_interval).2 = None
  ∧ epochs_run (coarse (unisage_cell num_epochs test_interval).1)
    = Z.to_nat num_epochs
  ∧ eval_epochs (coarse (unisage_cell num_epochs test_interval).1)
    = filter (λ e, e `mod` test_interval = 0) (range 1 (num_epochs + 1))
  ∧ length (eval_epochs (coarse (unisage_cell num_epochs test_interval).1))
    = Z.to_nat (num_epochs / test_interval)
  ∧ (num_epochs < test_interval →
     eval_epochs (coarse (unisage_cell num_epochs test_interval).1) = []).
Proof.
  intros Hk. unfold unisage_cell.
  rewrite coarse_unisage, eval_epochs_loop, epochs_run_loop, range_length by lia.
  rewrite run_epochs_nonzero by lia.
  assert (length (filter (λ e, e `mod` test_interval = 0) (range 1 (num_epochs + 1)))
          = Z.to_nat (num_epochs / test_interval)) as Hcount.
  { destruct (decide (0 ≤ num_epochs)) as [Hn|Hn].
    - rewrite <- (Z2Nat.id num_epochs) by done. by rewrite count_multiples.
    - rewrite range_empty by lia.
      pose proof (Z.div_lt_upper_bound num_epochs test_interval 0). simpl. lia. }
  split_and!; [done|f_equal; lia|done|done|].
  intros Hlt. apply nil_length_inv. rewrite Hcount.
  destruct (decide (0 ≤ num_epochs)).
  - by rewrite Z.div_small by lia.
  - pose proof (Z.div_lt_upper_bound num_epochs test_interval 0). lia.
Qed.

Lemma unisage_reports_witness :
  0 < 5
  ∧ (unisage_cell 12 5).2 = None
  ∧ epochs_run (coarse (unisage_cell 12 5).1) = Z.to_nat 12
  ∧ eval_epochs (coarse (unisage_cell 12 5).1)
    = filter (λ e, e `mod` 5 = 0) (range 1 (12 + 1))
  ∧ length (eval_epochs (coarse (unisage_cell 12 5).1)) = Z.to_nat (12 / 5)
  ∧ (12 < 5 → eval_epochs (coarse (unisage_cell 12 5).1) = []).
Proof. split; [lia|]. apply (unisage_reports 12 5). lia. Defined.

(** X14.  With a positive test interval the UniGCNII cell completes and
    reports on the epochs 0..num_epochs-1 that are multiples of the
    interval; so whenever it runs at all it reports right after its first
    optimizer step, [(num_epochs - 1) / test_interval + 1] times in all;
    and it never prints a metric of the validation subset. *)
Theorem unigcnii_reports (num_epochs test_interval : Z) :
  0 < test_interval →
  (unigcnii_cell num_epochs test_interval).2 = None
  ∧ epochs_run (coarse (unigcnii_cell num_epochs test_interval).1)
    = Z.to_nat num_epochs
  ∧ eval_epochs (coarse (unigcnii_cell num_epochs test_interval).1)
    = filter (λ e, e `mod` test_interval = 0) (range 0 num_epochs)
  ∧ ValMask ∉ printed_subsets (unigcnii_cell num_epochs test_interval).1
  ∧ (1 ≤ num_epochs →
     (∃ rest, (unigcnii_cell num_epochs test_interval).1
              = unigcnii_train_ops 0 ++ unigcnii_eval_ops 0 ++ rest)
     ∧ length (eval_epochs (coarse (unigcnii_cell num_epochs test_interval).1))
       = Z.to_nat ((num_epochs - 1) / test_interval + 1)).
Proof.
  intros Hk. unfold unigcnii_cell.
  rewrite coarse_unigcnii, eval_epochs_loop, epochs_run_loop, range_length by lia.
  rewrite run_epochs_nonzero by lia. simpl fst. simpl snd.
  split_and!; [done|f_equal; lia|done| |].
  - induction (range 0 num_epochs) as [|e l IH]; [by intros ?%elem_of_nil|].
    rewrite bind_cons. cbv beta. rewrite !printed_subsets_app, !elem_of_app.
    intros [H|H]; [|by apply IH].
    destruct (decide (e `mod` test_interval = 0)).
    + change (ValMask ∈ [TrainMask; TestMask]) in H.
      repeat (apply elem_of_cons in H as [[=]|H]). by apply elem_of_nil in H.
    + by apply elem_of_nil in H.
  - intros Hn. rewrite range_cons by lia. split.
    + rewrite bind_cons. rewrite decide_True by done. eauto.
    + rewrite filter_cons_True by done. simpl length.
      replace (0 + 1) with 1 by lia.
      replace num_epochs with (Z.of_nat (Z.to_nat (num_epochs - 1)) + 1) at 1 by lia.
      rewrite count_multiples by done. rewrite Z2Nat.id by lia.
      pose proof (Z.div_pos (num_epochs - 1) test_interval). lia.
Qed.

Lemma unigcnii_reports_witness :
  0 < 5
  ∧ (unigcnii_cell 12 5).2 = None
  ∧ epochs_run (coarse (unigcnii_cell 12 5).1) = Z.to_nat 12
  ∧ eval_epochs (coarse (unigcnii_cell 12 5).1)
    = filter (λ e, e `mod` 5 = 0) (range 0 12)
  ∧ ValMask ∉ printed_subsets (unigcnii_cell 12 5).1
  ∧ (1 ≤ 12 →
     (∃ rest, (unigcnii_cell 12 5).1
              = unigcnii_train_ops 0 ++ unigcnii_eval_ops 0 ++ rest)
     ∧ length (eval_epochs (coarse (unigcnii_cell 12 5).1))
       = Z.to_nat ((12 - 1) / 5 + 1)).
Proof. split; [lia|]. apply (unigcnii_reports 12 5). lia. Defined.

(** X15.  With a test interval of 0 both cells stop with
    [ZeroDivisionError] in their first epoch, after that epoch's optimizer
    step has been applied and before anything is printed; with no epochs to
    run they do nothing, whatever the interval. *)
Theorem zero_interval_fails_after_first_step (num_epochs : Z) :
  (1 ≤ num_epochs →
     unisage_cell num_epochs 0 = (unisage_train_ops 1, Some ZeroDivisionError)
     ∧ unigcnii_cell num_epochs 0 = (unigcnii_train_ops 0, Some ZeroDivisionError)
     ∧ epochs_run (coarse (unisage_cell num_epochs 0).1) = 1%nat
     ∧ epochs_run (coarse (unigcnii_cell num_epochs 0).1) = 1%nat)
  ∧ (num_epochs ≤ 0 → ∀ test_interval,
     unisage_cell num_epochs test_interval = ([], None)
     ∧ unigcnii_cell num_epochs test_interval = ([], None)).
Proof.
  split.
  - intros Hn. unfold unisage_cell, unigcnii_cell.
    rewrite (range_cons 1), (range_cons 0) by lia. done.
  - intros Hn k. unfold unisage_cell, unigcnii_cell.
    by rewrite !range_empty by lia.
Qed.

Lemma zero_interval_fails_after_first_step_witness :
  1 ≤ 5
  ∧ unisage_cell 5 0 = (unisage_train_ops 1, Some ZeroDivisionError)
  ∧ unigcnii_cell 5 0 = (unigcnii_train_ops 0, Some ZeroDivisionError)
  ∧ epochs_run (coarse (unisage_cell 5 0).1) = 1%nat
  ∧ epochs_run (coarse (unigcnii_cell 5 0).1) = 1%nat.
Proof.
  split; [lia|]. apply (proj1 (zero_interval_fails_after_first_step 5)). lia.
Defined.

(** ** Gradients and modes across the epochs *)

Section execution.
Implicit Types (s : torch_state) (k : Z).

Lemma exec_app s a b :
  exec s (a ++ b) =
  ((exec (exec s a).1 b).1, (exec s a).2 ++ (exec (exec s a).1 b).2).
Proof.
  revert s. induction a as [|o a IH]; intros s; simpl.
  - by destruct (exec s b).
  - destruct (exec_op s o) as [s1 obs1]. rewrite IH.
    destruct (exec s1 a) as [s2 obs2]. simpl.
    destruct (exec s2 b) as [s3 obs3]. simpl. by rewrite app_assoc.
Qed.

(** What one epoch shows: a forward pass in training mode, a step on the
    gradient of one backward pass, and a forward pass in evaluation mode
    when the epoch reports. *)
Lemma exec_unisage_epochs s k l :
  (exec s (l ≫= (λ e, unisage_train_ops e ++
       (if decide (e `mod` k = 0) then unisage_eval_ops e else [])))).2
  = l ≫= (λ e, [ForwardIn true; StepWith 1] ++
               (if decide (e `mod` k = 0) then [ForwardIn false] else [])).
Proof.
  revert s. induction l as [|e l IH]; intros s; [done|].
  rewrite !bind_cons, exec_app. cbn [snd]. rewrite IH. f_equal.
  rewrite exec_app. case_decide; reflexivity.
Qed.

Lemma exec_unigcnii_epochs s k l :
  accumulated s = 0%nat →
  (exec s (l ≫= (λ e, unigcnii_train_ops e ++
       (if decide (e `mod` k = 0) then unigcnii_eval_ops e else [])))).2
  = l ≫= (λ e, [ForwardIn true; StepWith 1] ++
               (if decide (e `mod` k = 0) then [ForwardIn false] else [])).
Proof.
  revert s. induction l as [|e l IH]; intros s Hs; [done|].
  rewrite !bind_cons, exec_app. cbn [snd]. rewrite IH.
  - f_equal. rewrite exec_app. destruct s as [mode acc]. simpl in Hs. subst acc.
    case_decide; reflexivity.
  - rewrite exec_app. case_decide; reflexivity.
Qed.
End execution.

(** X16.  In both cells, for a non-zero interval, every optimizer step
    acts on the gradient of exactly one backward pass (the UniGCNII cell
    zeroes after the step, the UniSAGE cell before the forward pass, and
    neither lets gradients add up across epochs); every training forward
    pass runs in training mode and every reporting forward pass in
    evaluation mode. *)
Theorem one_backward_per_step (num_epochs test_interval : Z) :
  test_interval ≠ 0 →
  (exec fresh (unisage_cell num_epochs test_interval).1).2
    = range 1 (num_epochs + 1) ≫=
        (λ e, [ForwardIn true; StepWith 1] ++
              (if decide (e `mod` test_interval = 0) then [ForwardIn false] else []))
  ∧ (exec fresh (unigcnii_cell num_epochs test_interval).1).2
    = range 0 num_epochs ≫=
        (λ e, [ForwardIn true; StepWith 1] ++
              (if decide (e `mod` test_interval = 0) then [ForwardIn false] else [])).
Proof.
  intros Hk. unfold unisage_cell, unigcnii_cell.
  rewrite !run_epochs_nonzero by done. cbn [fst]. split.
  - apply exec_unisage_epochs.
  - by apply exec_unigcnii_epochs.
Qed.

Lemma one_backward_per_step_witness :
  5 ≠ 0
  ∧ (exec fresh (unisage_cell 5 5).1).2
    = range 1 (5 + 1) ≫=
        (λ e, [ForwardIn true; StepWith 1] ++
              (if decide (e `mod` 5 = 0) then [ForwardIn false] else []))
  ∧ (exec fresh (unigcnii_cell 5 5).1).2
    = range 0 5 ≫=
        (λ e, [ForwardIn true; StepWith 1] ++
              (if decide (e `mod` 5 = 0) then [ForwardIn false] else [])).
Proof. split; [lia|]. apply (one_backward_per_step 5 5). lia. Defined.


(** ** Epochs and reports of the two notebooks *)


